(** * Korean map page (Naver map): script bootstrap, marker loading,
      filter derivation, viewer navigation and teardown.

    Shallow embedding of
    [web/src/routes/(user)/map/korean/[[photos=photos]]/[[assetId=id]]/+page.svelte].

    The page is a single-threaded event-loop program.  Each function of the
    page becomes a state transformer on a record holding the variables the
    function reads and writes; calls to collaborators outside the page (the
    asset-viewing store, the router, the SDK, the DOM) are kept as explicit
    effects on that record. *)

From Stdlib Require Import ZArith Lia.
From Stdlib Require QArith.
From stdpp Require Import base option strings list pretty.

Open Scope string_scope.
Open Scope list_scope.

(** ** JavaScript values used by the page *)

Module JS.

(** [xs[i]] on an array: [undefined] (here [None]) outside of [0 .. length-1]. *)
Definition index {A} (xs : list A) (i : Z) : option A :=
  if (i <? 0)%Z then None else xs !! Z.to_nat i.

(** [xs.length] as a JavaScript number. *)
Definition length {A} (xs : list A) : Z := Z.of_nat (List.length xs).

(** Truthiness of a string: only the empty string is falsy. *)
Definition truthy (s : string) : bool :=
  match s with EmptyString => false | _ => true end.

(** A property that holds a string, [null] or [undefined]. *)
Inductive Nullable : Type :=
| Undefined
| Null
| Str (s : string).

(** A string or [undefined] as such a property. *)
Definition of_option (o : option string) : Nullable :=
  match o with
  | Some s => Str s
  | None => Undefined
  end.

End JS.

(** ** ViewerNavigator: [onViewAssets], [navigateNext], [navigatePrevious] *)

Module Viewer.

(** Calls that leave the page, in the order they are made. *)
Inductive Call : Type :=
| SetAssetId (id : option string)          (* setAssetId(id) *)
| Navigate (assetId : option string)       (* navigate({targetRoute:'current', assetId}) *)
| ShowAssetViewer (show : bool).           (* assetViewingStore.showAssetViewer(show) *)

#[global] Instance Call_eq_dec : EqDecision Call.
Proof. solve_decision. Defined.

Record Page : Type := mkPage {
  viewingAssets : list string;       (* let viewingAssets: string[] = $state([]) *)
  viewingAssetCursor : Z;            (* let viewingAssetCursor = 0 *)
  viewingAsset : option string;      (* $viewingAsset.id *)
  isViewing : bool;                  (* $showAssetViewer *)
  calls : list Call                  (* outgoing calls, oldest first *)
}.

(** The page as the script block initialises it. *)
Definition initial : Page :=
  {| viewingAssets := []; viewingAssetCursor := 0; viewingAsset := None;
     isViewing := false; calls := [] |}.

(** Modelled from the spec: the asset-viewing store is not part of the
    page.  [setAssetId id] displays the asset with that id: the store's
    viewing asset becomes that asset and the viewer is shown.  The argument
    is recorded as passed, also when it is [undefined]. *)
Definition setAssetId (id : option string) (p : Page) : Page :=
  {| viewingAssets := viewingAssets p;
     viewingAssetCursor := viewingAssetCursor p;
     viewingAsset := id;
     isViewing := true;
     calls := calls p ++ [SetAssetId id] |}.

(** Modelled from the spec: the router is not part of the page.
    [navigate] sets the shareable location; only the call is recorded. *)
Definition navigate (assetId : option string) (p : Page) : Page :=
  {| viewingAssets := viewingAssets p;
     viewingAssetCursor := viewingAssetCursor p;
     viewingAsset := viewingAsset p;
     isViewing := isViewing p;
     calls := calls p ++ [Navigate assetId] |}.

Definition set_session (ids : list string) (c : Z) (p : Page) : Page :=
  {| viewingAssets := ids;
     viewingAssetCursor := c;
     viewingAsset := viewingAsset p;
     isViewing := isViewing p;
     calls := calls p |}.

(** [async function onViewAssets(assetIds)] *)
Definition onViewAssets (assetIds : list string) (p : Page) : Page :=
  let p := set_session assetIds 0 p in
  setAssetId (JS.index assetIds 0) p.

(** [async function navigateNext()] *)
Definition navigateNext (p : Page) : Page * bool :=
  if (viewingAssetCursor p <? JS.length (viewingAssets p) - 1)%Z then
    let c := (viewingAssetCursor p + 1)%Z in            (* ++viewingAssetCursor *)
    let p := set_session (viewingAssets p) c p in
    let p := setAssetId (JS.index (viewingAssets p) c) p in
    let p := navigate (viewingAsset p) p in
    (p, true)
  else (p, false).

(** [async function navigatePrevious()] *)
Definition navigatePrevious (p : Page) : Page * bool :=
  if (viewingAssetCursor p >? 0)%Z then
    let c := (viewingAssetCursor p - 1)%Z in            (* --viewingAssetCursor *)
    let p := set_session (viewingAssets p) c p in
    let p := setAssetId (JS.index (viewingAssets p) c) p in
    let p := navigate (viewingAsset p) p in
    (p, true)
  else (p, false).

(** [onClose] of the asset viewer. *)
Definition onClose (p : Page) : Page :=
  let p := {| viewingAssets := viewingAssets p;
              viewingAssetCursor := viewingAssetCursor p;
              viewingAsset := viewingAsset p;
              isViewing := false;
              calls := calls p ++ [ShowAssetViewer false] |} in
  navigate None p.

(** The session part of the page: what the navigator owns. *)
Definition session (p : Page) : list string * Z :=
  (viewingAssets p, viewingAssetCursor p).

(** Cursor after [open(ids)] and after each of three [next()] calls. *)
Definition cursors_open_next3 (ids : list string) (p : Page) : list Z :=
  let p0 := onViewAssets ids p in
  let p1 := fst (navigateNext p0) in
  let p2 := fst (navigateNext p1) in
  let p3 := fst (navigateNext p2) in
  [viewingAssetCursor p0; viewingAssetCursor p1;
   viewingAssetCursor p2; viewingAssetCursor p3].

(** Spec states of the navigator: open means a non-empty id list with the
    cursor inside it. *)
Definition is_open (p : Page) : Prop :=
  viewingAssets p <> [] /\
  (0 <= viewingAssetCursor p < JS.length (viewingAssets p))%Z.

(** Sample sessions. *)
Definition abc : list string := ["a"; "b"; "c"].

Definition two_ids_at_start : Page :=
  {| viewingAssets := ["x"; "y"]; viewingAssetCursor := 0;
     viewingAsset := Some "x"; isViewing := true; calls := [] |}.

Definition two_ids_at_end : Page :=
  {| viewingAssets := ["x"; "y"]; viewingAssetCursor := 1;
     viewingAsset := Some "y"; isViewing := true; calls := [] |}.

End Viewer.

(** ** Exceptions: the result of a block that may [throw] *)

Module Exc.

Inductive JSError : Type :=
| RangeError          (* Date.prototype.toISOString on an Invalid Date *)
| AbortError          (* fetch rejected through its AbortSignal *)
| NetworkError        (* fetch rejected for any other reason *)
| LoadError (src : string)    (* new Error(`Failed: ${src}`) *)
| TypeError.                  (* a property read on undefined *)

#[global] Instance JSError_eq_dec : EqDecision JSError.
Proof. solve_decision. Defined.

Inductive t (A : Type) : Type :=
| Ok (a : A)
| Throw (e : JSError).
Arguments Ok {A} a.
Arguments Throw {A} e.

Definition bind {A B} (m : t A) (k : A -> t B) : t B :=
  match m with
  | Ok a => k a
  | Throw e => Throw e
  end.

(** [try { body } catch { handler }] *)
Definition try_catch {A} (body : t A) (handler : A) : A :=
  match body with
  | Ok a => a
  | Throw _ => handler
  end.

End Exc.

Notation "'try!' x <- m ; k" := (Exc.bind m (fun x => k))
  (at level 10, x name, m at level 100, k at level 200).

(** ** Filter derivation: [getFileCreatedDates] *)

Module Filter.

(** [$mapSettings], the fields the page reads. *)
Record MapSettings : Type := mkSettings {
  includeArchived : bool;
  onlyFavorites : bool;
  withPartners : bool;
  withSharedAlbums : bool;
  relativeDate : string;
  dateAfter : string;
  dateBefore : string
}.

(** What the page uses of luxon ([Duration], [DateTime]) and of [Date].
    Both libraries are outside the repository and stay an interface. *)
Class Clock : Type := {
  Instant : Type;
  Duration : Type;
  (** [Duration.fromISO(s)]; [None] when [duration.isValid] is false. *)
  Duration_fromISO : string -> option Duration;
  (** [dateTime.minus(duration)] *)
  minus : Instant -> Duration -> Instant;
  (** [dateTime.toISO()]; [None] is the [null] returned for a date-time
      that cannot be represented (an invalid [DateTime]). *)
  toISO : Instant -> option string;
  (** [new Date(s)]; [None] is the Invalid Date. *)
  Date_parse : string -> option Instant;
  (** [date.toISOString()] on a valid date. *)
  toISOString : Instant -> string
}.

Record FileCreatedDates : Type := mkDates {
  fileCreatedAfter : JS.Nullable;
  fileCreatedBefore : option string
}.

Definition empty_dates : FileCreatedDates :=
  {| fileCreatedAfter := JS.Undefined; fileCreatedBefore := None |}.

Section WithClock.
Context `{Clock}.

(** [new Date(s).toISOString()]: throws a RangeError on an Invalid Date. *)
Definition Date_toISOString (s : string) : Exc.t string :=
  match Date_parse s with
  | Some d => Exc.Ok (toISOString d)
  | None => Exc.Throw Exc.RangeError
  end.

(** [s ? new Date(s).toISOString() : undefined] *)
Definition iso_or_undefined (s : string) : Exc.t (option string) :=
  if JS.truthy s then (try! x <- Date_toISOString s; Exc.Ok (Some x))
  else Exc.Ok None.

Definition clear_dates (s : MapSettings) : MapSettings :=
  {| includeArchived := includeArchived s;
     onlyFavorites := onlyFavorites s;
     withPartners := withPartners s;
     withSharedAlbums := withSharedAlbums s;
     relativeDate := relativeDate s;
     dateAfter := "";
     dateBefore := "" |}.

(** The same settings with other stored absolute dates. *)
Definition with_absolute (a b : string) (s : MapSettings) : MapSettings :=
  {| includeArchived := includeArchived s;
     onlyFavorites := onlyFavorites s;
     withPartners := withPartners s;
     withSharedAlbums := withSharedAlbums s;
     relativeDate := relativeDate s;
     dateAfter := a;
     dateBefore := b |}.

(** [function getFileCreatedDates()]; [now] is what [DateTime.now()]
    returns when the function runs.  The result is the store after the
    call and the returned object. *)
Definition getFileCreatedDates (now : Instant) (s : MapSettings)
  : MapSettings * FileCreatedDates :=
  if JS.truthy (relativeDate s) then
    let duration := Duration_fromISO (relativeDate s) in
    (s, {| fileCreatedAfter :=
             match duration with
             | Some d =>                       (* duration.isValid *)
                 match toISO (minus now d) with
                 | Some iso => JS.Str iso
                 | None => JS.Null
                 end
             | None => JS.Undefined
             end;
           fileCreatedBefore := None |})
  else
    Exc.try_catch
      (try! a <- iso_or_undefined (dateAfter s);
       try! b <- iso_or_undefined (dateBefore s);
       Exc.Ok (s, {| fileCreatedAfter := JS.of_option a; fileCreatedBefore := b |}))
      (clear_dates s, empty_dates).

(** The spec's wording of "parsing a stored absolute value fails". *)
Definition absolute_parse_fails (s : MapSettings) : Prop :=
  JS.truthy (relativeDate s) = false /\
  ((JS.truthy (dateAfter s) = true /\ Date_parse (dateAfter s) = None) \/
   (JS.truthy (dateBefore s) = true /\ Date_parse (dateBefore s) = None)).

End WithClock.

(** A small clock for running the definitions: instants and durations are
    milliseconds; the only durations it reads are ["P7D"], ["PT1H"] and
    ["P1000000000Y"] (a thousand million years of 365.2425 days), the only
    dates ["0"] and ["1000"].  As in luxon, a date-time further than
    8.64e15 ms from the epoch cannot be represented and has no ISO string. *)
Definition toy_fromISO (s : string) : option Z :=
  if String.eqb s "P7D" then Some 604800000%Z
  else if String.eqb s "PT1H" then Some 3600000%Z
  else if String.eqb s "P1000000000Y" then Some 31556952000000000000%Z
  else None.

Definition toy_toISO (t : Z) : option string :=
  if (Z.abs t <=? 8640000000000000)%Z then Some (pretty t) else None.

Definition toy_parse (s : string) : option Z :=
  if String.eqb s "0" then Some 0%Z
  else if String.eqb s "1000" then Some 1000%Z
  else None.

Definition toy_clock : Clock :=
  {| Instant := Z; Duration := Z;
     Duration_fromISO := toy_fromISO;
     minus := fun t d => (t - d)%Z;
     toISO := toy_toISO;
     Date_parse := toy_parse;
     toISOString := fun t => pretty t +:+ "Z" |}.

(** Sample settings: a relative window, and an absolute one whose
    [dateAfter] is not a date. *)
Definition last_week : MapSettings :=
  {| includeArchived := false; onlyFavorites := true;
     withPartners := false; withSharedAlbums := false;
     relativeDate := "P7D";
     dateAfter := "yesterday"; dateBefore := "1000" |}.

Definition bad_after : MapSettings :=
  {| includeArchived := false; onlyFavorites := false;
     withPartners := false; withSharedAlbums := false;
     relativeDate := "";
     dateAfter := "yesterday"; dateBefore := "1000" |}.

(** A relative window that reaches further back than a date-time can. *)
Definition since_ever : MapSettings :=
  {| includeArchived := false; onlyFavorites := false;
     withPartners := false; withSharedAlbums := false;
     relativeDate := "P1000000000Y";
     dateAfter := ""; dateBefore := "" |}.

End Filter.

(** ** MarkerDataLoader: [loadMapMarkers] and the fetches it issues *)

Module Loader.
Import Filter.

(** [MapMarkerResponseDto]: the coordinates are finite doubles, carried
    but never computed with. *)
Record MapMarkerResponseDto : Type := mkDto {
  id : string;
  lat : QArith_base.Q;
  lon : QArith_base.Q
}.

(** First argument of [getMapMarkers]. *)
Record Query : Type := mkQuery {
  isArchived : option bool;
  isFavorite : option bool;
  q_fileCreatedAfter : option string;
  q_fileCreatedBefore : option string;
  q_withPartners : option bool;
  q_withSharedAlbums : option bool
}.

Inductive Status : Type :=
| Pending
| Fulfilled (markers : list MapMarkerResponseDto)
| Rejected (e : Exc.JSError).

(** One [getMapMarkers] call: its query, the controller whose signal it
    was given, and what became of its promise. *)
Record Request : Type := mkRequest {
  query : Query;
  signal : nat;
  status : Status
}.

Record State : Type := mkState {
  settings : MapSettings;            (* $mapSettings *)
  abortController : option nat;      (* let abortController: AbortController | null *)
  aborted : list bool;               (* the controllers allocated so far: signal.aborted *)
  requests : list Request            (* the fetches issued so far, oldest first *)
}.

Definition initial (s : MapSettings) : State :=
  {| settings := s; abortController := None; aborted := []; requests := [] |}.

Definition is_pending (r : Request) : bool :=
  match status r with Pending => true | _ => false end.

(** The fetches whose promise has not settled. *)
Definition in_flight (st : State) : list Request :=
  filter (fun r => is_pending r = true) (requests st).

(** [b || undefined] *)
Definition or_undefined (b : bool) : option bool :=
  if b then Some true else None.

(** [s || undefined] on a string, [null] or [undefined]. *)
Definition str_or_undefined (s : JS.Nullable) : option string :=
  match s with
  | JS.Str x => if JS.truthy x then Some x else None
  | _ => None
  end.

(** What aborting controller [c] does to a fetch: a pending fetch that
    holds [c]'s signal rejects with an AbortError. *)
Definition abort_request (c : nat) (r : Request) : Request :=
  if is_pending r && Nat.eqb (signal r) c
  then {| query := query r; signal := signal r;
          status := Rejected Exc.AbortError |}
  else r.

(** [controller.abort()] *)
Definition abort (c : nat) (st : State) : State :=
  {| settings := settings st;
     abortController := abortController st;
     aborted := <[c := true]> (aborted st);
     requests := abort_request c <$> requests st |}.

(** [abortController?.abort()] *)
Definition abort_current (st : State) : State :=
  match abortController st with
  | Some c => abort c st
  | None => st
  end.

(** [abortController = new AbortController()] *)
Definition new_controller (st : State) : State :=
  {| settings := settings st;
     abortController := Some (length (aborted st));
     aborted := aborted st ++ [false];
     requests := requests st |}.

(** [getMapMarkers(query, { signal })]: a fetch given an aborted signal
    rejects at once. *)
Definition getMapMarkers (q : Query) (c : nat) (st : State) : State :=
  let s := match aborted st !! c with
           | Some true => Rejected Exc.AbortError
           | _ => Pending
           end in
  {| settings := settings st;
     abortController := abortController st;
     aborted := aborted st;
     requests := requests st ++ [{| query := q; signal := c; status := s |}] |}.

Definition set_settings (s : MapSettings) (st : State) : State :=
  {| settings := s;
     abortController := abortController st;
     aborted := aborted st;
     requests := requests st |}.

Section WithClock.
Context `{Clock}.

(** [async function loadMapMarkers()]: the state after the call and the
    index of the fetch whose promise it returns. *)
Definition loadMapMarkers (now : Instant) (st : State) : State * nat :=
  let st := abort_current st in                (* if (abortController) abortController.abort() *)
  let st := new_controller st in
  let s := settings st in
  let '(s', dates) := getFileCreatedDates now s in
  let st := set_settings s' st in
  let q := {| isArchived := or_undefined (includeArchived s);
              isFavorite := or_undefined (onlyFavorites s);
              q_fileCreatedAfter := str_or_undefined (fileCreatedAfter dates);
              q_fileCreatedBefore := fileCreatedBefore dates;
              q_withPartners := or_undefined (withPartners s);
              q_withSharedAlbums := or_undefined (withSharedAlbums s) |} in
  match abortController st with
  | Some c => (getMapMarkers q c st, length (requests st))
  | None => (st, length (requests st))         (* unreachable: just assigned *)
  end.

(** The fetch a call issues: its query follows the settings read at the
    call and the derived dates; it is pending, on a new controller. *)
Definition issued (now : Instant) (st : State) : Request :=
  let s := settings st in
  let dates := snd (getFileCreatedDates now s) in
  {| query := {| isArchived := or_undefined (includeArchived s);
                 isFavorite := or_undefined (onlyFavorites s);
                 q_fileCreatedAfter := str_or_undefined (fileCreatedAfter dates);
                 q_fileCreatedBefore := fileCreatedBefore dates;
                 q_withPartners := or_undefined (withPartners s);
                 q_withSharedAlbums := or_undefined (withSharedAlbums s) |};
     signal := length (aborted (abort_current st));
     status := Pending |}.

(** What can happen to the loader between two turns of the event loop.
    [CleanupAbort] is the [abortController?.abort()] of the cleanup
    closure, for whoever calls that closure: unmounting the component
    does not (see [Lifecycle.onMount]), so an unmount is no event of the
    loader at all. *)
Inductive Event : Type :=
| Load (now : Instant)                              (* a call of loadMapMarkers *)
| Respond (r : nat) (ms : list MapMarkerResponseDto) (* the answer to fetch r arrives *)
| Fail (r : nat)                                    (* fetch r fails in the network *)
| CleanupAbort                                      (* the closure's abortController?.abort() *)
| SetSettings (s : MapSettings).                    (* the user edits the filter *)

(** A fetch settles only while it is pending. *)
Definition settle (r : nat) (s : Status) (st : State) : State :=
  match requests st !! r with
  | Some rq =>
      if is_pending rq then
        {| settings := settings st;
           abortController := abortController st;
           aborted := aborted st;
           requests := <[r := {| query := query rq; signal := signal rq;
                                 status := s |}]> (requests st) |}
      else st
  | None => st
  end.

Definition step (st : State) (e : Event) : State :=
  match e with
  | Load now => fst (loadMapMarkers now st)
  | Respond r ms => settle r (Fulfilled ms) st
  | Fail r => settle r (Rejected Exc.NetworkError) st
  | CleanupAbort => abort_current st
  | SetSettings s => set_settings s st
  end.

Definition run (evs : list Event) (st : State) : State :=
  foldl step st evs.

(** Every pending fetch is the newest one and holds the signal of the
    current controller. *)
Definition only_newest_pending (st : State) : Prop :=
  forall i r, requests st !! i = Some r -> is_pending r = true ->
    S i = length (requests st) /\ abortController st = Some (signal r).

End WithClock.

End Loader.

(** ** ScriptBootstrapper: [appendScriptOnce] and [loadNaverStack] *)

Module Scripts.

(** The two globals the [ready] predicates look at. *)
Record Window : Type := mkWindow {
  naver_maps : bool;            (* !!window.naver?.maps *)
  MarkerClustering : bool       (* !!window.MarkerClustering *)
}.

Inductive LoadState : Type := Loading | Loaded | Errored.

(** A [<script>] element: the [src] attribute as it was written ([None]
    for an element without one, such as an inline script), how far its
    fetch is, and the promises whose [resolve]/[reject] hang on its
    [load]/[error] event (through [onload]/[onerror] or a once-listener). *)
Record ScriptEl : Type := mkScript {
  attr_src : option string;
  load_state : LoadState;
  waiters : list nat
}.

Inductive PromiseState : Type :=
| PPending
| PResolved
| PRejected (e : Exc.JSError).

(** What happened, in order: a call of [appendScriptOnce] for [src] that
    returned promise [p], and the resolution of a promise. *)
Inductive Occurrence : Type :=
| Requested (src : string) (p : nat)
| Resolved (p : nat).

Record Dom : Type := mkDom {
  (** What the browser makes of a URL written in this document: the URL
      parsed against the document's base URL and serialised again.  The
      URL parser belongs to the browser and stays an interface. *)
  href : string -> string;
  window : Window;
  scripts : list ScriptEl;          (* document.scripts, in document order *)
  promises : list PromiseState;     (* the promises appendScriptOnce returned *)
  history : list Occurrence         (* oldest first *)
}.

(** A document before any call: its own script tags, no promise yet. *)
Definition fresh_document (h : string -> string) (w : Window) (ss : list ScriptEl) : Dom :=
  {| href := h; window := w; scripts := ss; promises := []; history := [] |}.

(** The [src] property read back from an element ([s.src]): the attribute
    as the document resolves it, and the empty string for an element
    without the attribute. *)
Definition src_property (h : string -> string) (s : ScriptEl) : string :=
  match attr_src s with
  | Some u => h u
  | None => ""
  end.

(** The [src] argument of the call of [appendScriptOnce] that returned
    promise [p] (the [src] its [reject] closure has captured), read from
    the history; each promise is returned by one call. *)
Definition requested_src (p : nat) (h : list Occurrence) : string :=
  foldl (fun acc o =>
           match o with
           | Requested src q => if Nat.eqb q p then src else acc
           | Resolved _ => acc
           end) "" h.

Definition with_scripts (ss : list ScriptEl) (d : Dom) : Dom :=
  {| href := href d; window := window d; scripts := ss;
     promises := promises d; history := history d |}.

Definition with_promises (ps : list PromiseState) (h : list Occurrence) (d : Dom) : Dom :=
  {| href := href d; window := window d; scripts := scripts d;
     promises := ps; history := h |}.

(** [resolve()] of promise [p]: nothing happens once it is settled. *)
Definition resolve (p : nat) (d : Dom) : Dom :=
  match promises d !! p with
  | Some PPending =>
      with_promises (<[p := PResolved]> (promises d)) (history d ++ [Resolved p]) d
  | _ => d
  end.

(** [reject(e)] of promise [p]. *)
Definition reject (e : Exc.JSError) (p : nat) (d : Dom) : Dom :=
  match promises d !! p with
  | Some PPending => with_promises (<[p := PRejected e]> (promises d)) (history d) d
  | _ => d
  end.

Definition add_waiter (p : nat) (s : ScriptEl) : ScriptEl :=
  {| attr_src := attr_src s; load_state := load_state s;
     waiters := waiters s ++ [p] |}.

(** [function appendScriptOnce(src, ready)]: the document after the call
    and the promise returned. *)
Definition appendScriptOnce (src : string) (ready : Window -> bool) (d : Dom)
  : Dom * nat :=
  let p := length (promises d) in                       (* new Promise(...) *)
  let d := with_promises (promises d ++ [PPending])
                         (history d ++ [Requested src p]) d in
  if ready (window d) then (resolve p d, p)             (* if (ready()) return resolve() *)
  else
    match list_find (fun s => src_property (href d) s = src) (scripts d) with
    | Some (i, s) =>                                    (* existing.addEventListener(...) *)
        (with_scripts (<[i := add_waiter p s]> (scripts d)) d, p)
    | None =>                                           (* document.head.appendChild(s) *)
        (with_scripts (scripts d ++ [{| attr_src := Some src; load_state := Loading;
                                        waiters := [p] |}]) d, p)
    end.

Definition set_load_state (i : nat) (ls : LoadState) (d : Dom) : Dom :=
  match scripts d !! i with
  | Some s => with_scripts (<[i := {| attr_src := attr_src s; load_state := ls;
                                      waiters := waiters s |}]> (scripts d)) d
  | None => d
  end.

(** The [load] event of element [i]: the script has run and left the
    window as [w]; every promise waiting on the element resolves.  An
    element fires once, while it is loading. *)
Definition fire_load (i : nat) (w : Window) (d : Dom) : Dom :=
  match scripts d !! i with
  | Some s =>
      match load_state s with
      | Loading =>
          let d := {| href := href d; window := w; scripts := scripts d;
                      promises := promises d; history := history d |} in
          let d := set_load_state i Loaded d in
          foldl (fun d p => resolve p d) d (waiters s)
      | _ => d
      end
  | None => d
  end.

(** The [error] event of element [i]: every promise waiting on the
    element rejects with [new Error(`Failed: ${src}`)], [src] being the
    argument of the call that returned the promise. *)
Definition fire_error (i : nat) (d : Dom) : Dom :=
  match scripts d !! i with
  | Some s =>
      match load_state s with
      | Loading =>
          let h := history d in
          let d := set_load_state i Errored d in
          foldl (fun d p => reject (Exc.LoadError (requested_src p h)) p d) d (waiters s)
      | _ => d
      end
  | None => d
  end.

Definition ready_maps (w : Window) : bool := naver_maps w.
Definition ready_clustering (w : Window) : bool := MarkerClustering w.

Definition clusteringUrl : string := "/MarkerClustering.js".

(** Number of script elements carrying [src]. *)
Definition count_src (src : string) (d : Dom) : nat :=
  length (filter (fun s => attr_src s = Some src) (scripts d)).

(** A sample document, served from [https://photos.example.org].  Its
    resolver is written out for the two kinds of URL this page passes to
    [appendScriptOnce]: a path starting with [/] gets the origin in front,
    and the maps URL, which is absolute and already in serialised form,
    reads back as written. *)
Definition photos_origin : string := "https://photos.example.org".

Definition photos_href (u : string) : string :=
  if String.prefix "/" u then photos_origin +:+ u else u.

Definition nothing_ready : Window :=
  {| naver_maps := false; MarkerClustering := false |}.

(** How one promise may change while the history grows by [hx]: a pending
    promise stays pending, resolves (and [hx] says so) or rejects; a
    settled promise stays as it is. *)
Definition promise_moves (hx : list Occurrence) (p : nat)
    (before : PromiseState) (after : option PromiseState) : Prop :=
  match before with
  | PPending =>
      after = Some PPending \/
      (after = Some PResolved /\ Resolved p ∈ hx) \/
      exists e, after = Some (PRejected e)
  | _ => after = Some before
  end.

(** [d'] comes after [d]: the history is extended and every promise of
    [d] has moved as allowed. *)
Definition evolves (d d' : Dom) : Prop :=
  exists hx, history d' = history d ++ hx /\
    forall p s, promises d !! p = Some s ->
      promise_moves hx p s (promises d' !! p).

Section WithClientId.
(** [import.meta.env.VITE_NAVER_CLIENT_ID ?? 'YOUR_NAVER_MAP_CLIENT_ID'] *)
Variable CLIENT_ID : string.

Definition mapsUrl : string :=
  "https://oapi.map.naver.com/openapi/v3/maps.js?ncpKeyId=" +:+ CLIENT_ID.

(** Where one execution of [async function loadNaverStack()] stands:
    suspended at its first or second [await], returned, or thrown. *)
Inductive Stack : Type :=
| AwaitMaps (p1 : nat)
| AwaitClustering (p1 p2 : nat)
| Returned (p1 p2 : nat)
| Thrown (e : Exc.JSError).

(** The call itself: runs up to the first [await]. *)
Definition loadNaverStack (d : Dom) : Dom * Stack :=
  let '(d, p1) := appendScriptOnce mapsUrl ready_maps d in
  (d, AwaitMaps p1).

(** The continuation after an [await], run when the event loop gets to
    it; it goes on only if the awaited promise has settled. *)
Definition resume (c : Dom * Stack) : Dom * Stack :=
  let '(d, t) := c in
  match t with
  | AwaitMaps p1 =>
      match promises d !! p1 with
      | Some PResolved =>
          let '(d, p2) := appendScriptOnce clusteringUrl ready_clustering d in
          (d, AwaitClustering p1 p2)
      | Some (PRejected e) => (d, Thrown e)
      | _ => c
      end
  | AwaitClustering p1 p2 =>
      match promises d !! p2 with
      | Some PResolved => (d, Returned p1 p2)
      | Some (PRejected e) => (d, Thrown e)
      | _ => c
      end
  | _ => c
  end.

(** One turn of the event loop as seen by this execution. *)
Inductive Event : Type :=
| FireLoad (i : nat) (w : Window)
| FireError (i : nat)
| OtherCall (src : string) (ready : Window -> bool)   (* another caller of appendScriptOnce *)
| Resume.

Definition step (c : Dom * Stack) (e : Event) : Dom * Stack :=
  match e with
  | FireLoad i w => (fire_load i w (fst c), snd c)
  | FireError i => (fire_error i (fst c), snd c)
  | OtherCall src ready => (fst (appendScriptOnce src ready (fst c)), snd c)
  | Resume => resume c
  end.

Definition run (evs : list Event) (c : Dom * Stack) : Dom * Stack :=
  foldl step c evs.

(** [a] occurs before [b] in [h]. *)
Definition precedes (a b : Occurrence) (h : list Occurrence) : Prop :=
  exists h1 h2 h3 : list Occurrence, h = h1 ++ a :: h2 ++ b :: h3.

(** The second load of an execution has been initiated: it returns the
    promises of both steps. *)
Definition second_step (t : Stack) : option (nat * nat) :=
  match t with
  | AwaitClustering p1 p2 | Returned p1 p2 => Some (p1, p2)
  | _ => None
  end.

(** What holds of an execution wherever it stands. *)
Definition stack_inv (c : Dom * Stack) : Prop :=
  let d := fst c in
  match snd c with
  | AwaitMaps p1 =>
      exists h1 h2,
        history d = h1 ++ Requested mapsUrl p1 :: h2 /\
        is_Some (promises d !! p1) /\
        (promises d !! p1 = Some PResolved -> Resolved p1 ∈ h2)
  | AwaitClustering p1 p2 | Returned p1 p2 =>
      promises d !! p1 = Some PResolved /\
      exists h1 h2 h3 h4,
        history d = h1 ++ Requested mapsUrl p1 :: h2 ++
                    Resolved p1 :: h3 ++ Requested clusteringUrl p2 :: h4
  | Thrown _ => True
  end.

End WithClientId.

End Scripts.

(** ** MapLifecycleController: [onMount], the listeners and the teardown *)

Module Lifecycle.
Import Filter.

(** A [naver.maps.Marker] the page created: [m.set('id', o.id)] is read
    back as [m.id]. *)
Record Marker : Type := mkMarker {
  m_id : string;
  m_lat : QArith_base.Q;
  m_lon : QArith_base.Q
}.

(** The text of a count badge: the text the icon's markup came with, or
    [String(count)] once the cluster marker has been styled.  [String] of
    a number is kept as a term: it is the decimal numeral only up to 1e21,
    and in exponent notation from there on. *)
Inductive BadgeText : Type :=
| Markup (s : string)
| String_of (count : Z).

(** The element of a cluster marker: its count badge and its image. *)
Record ClusterEl : Type := mkClusterEl {
  badge : BadgeText;
  img_src : string
}.

(** Modelled from the spec: [MarkerClustering.js] is not under src.  A
    cluster marker carries, under the key ['cluster'], the cluster whose
    [_clusterMember] array holds the member markers in insertion order;
    [getElement()] is [null] until the marker is drawn. *)
Record Cluster : Type := mkCluster {
  _clusterMember : list Marker;
  getElement : option ClusterEl
}.

Inductive Target : Type :=
| TMap
| TMarker (i : nat)               (* markers[i] *)
| TClusterMarker (c : nat).

Inductive EventName : Type := click | mouseover | mouseout | idle.

(** The closures the page registers. *)
Inductive Handler : Type :=
| MarkerHoverEnter (i : nat)
| MarkerHoverLeave (i : nat)
| MarkerClick (i : nat)           (* () => { onViewAssets([m.id]) } *)
| ClusterClick (c : nat)          (* (e) => { const ids = ...; onViewAssets(ids) } *)
| ClusterHoverEnter (c : nat)
| ClusterHoverLeave (c : nat)
| IdleLog.

#[global] Instance Target_eq_dec : EqDecision Target.
Proof. solve_decision. Defined.
#[global] Instance EventName_eq_dec : EqDecision EventName.
Proof. solve_decision. Defined.
#[global] Instance Handler_eq_dec : EqDecision Handler.
Proof. solve_decision. Defined.

(** An entry of [naver.maps.Event]'s registry; [handle] is what
    [addListener] returned. *)
Record Listener : Type := mkListener {
  handle : nat;
  target : Target;
  event : EventName;
  handler : Handler
}.

Inductive Clusterer : Type :=
| NoClusterer                     (* mc not constructed *)
| Attached                        (* mc drawn on the map *)
| Detached.                       (* mc.setMap(null) *)

Record World : Type := mkWorld {
  page : Viewer.Page;
  loader : Loader.State;
  map_built : bool;               (* new naver.maps.Map(mapEl, ...) has run *)
  markers : list Marker;          (* const markers *)
  clusters : list Cluster;        (* the cluster markers the clusterer shows *)
  clusterer : Clusterer;          (* const mc *)
  listeners : list Listener;      (* registration order *)
  next_handle : nat
}.

(** The component before [onMount] runs. *)
Definition initial (s : MapSettings) : World :=
  {| page := Viewer.initial; loader := Loader.initial s; map_built := false;
     markers := []; clusters := []; clusterer := NoClusterer;
     listeners := []; next_handle := 0 |}.

Definition with_page (p : Viewer.Page) (w : World) : World :=
  {| page := p; loader := loader w; map_built := map_built w;
     markers := markers w; clusters := clusters w; clusterer := clusterer w;
     listeners := listeners w; next_handle := next_handle w |}.

Definition with_loader (l : Loader.State) (w : World) : World :=
  {| page := page w; loader := l; map_built := map_built w;
     markers := markers w; clusters := clusters w; clusterer := clusterer w;
     listeners := listeners w; next_handle := next_handle w |}.

Definition with_listeners (ls : list Listener) (n : nat) (w : World) : World :=
  {| page := page w; loader := loader w; map_built := map_built w;
     markers := markers w; clusters := clusters w; clusterer := clusterer w;
     listeners := ls; next_handle := n |}.

Definition with_clusterer (c : Clusterer) (w : World) : World :=
  {| page := page w; loader := loader w; map_built := map_built w;
     markers := markers w; clusters := clusters w; clusterer := c;
     listeners := listeners w; next_handle := next_handle w |}.

Definition with_clusters (cs : list Cluster) (w : World) : World :=
  {| page := page w; loader := loader w; map_built := map_built w;
     markers := markers w; clusters := cs; clusterer := clusterer w;
     listeners := listeners w; next_handle := next_handle w |}.

(** [naver.maps.Event.addListener(target, event, handler)] *)
Definition addListener (t : Target) (e : EventName) (h : Handler) (w : World)
  : World * nat :=
  let n := next_handle w in
  (with_listeners (listeners w ++ [{| handle := n; target := t; event := e;
                                      handler := h |}]) (S n) w, n).

(** [naver.maps.Event.removeListener(handle)] *)
Definition removeListener (n : nat) (w : World) : World :=
  with_listeners (filter (fun l => handle l <> n) (listeners w)) (next_handle w) w.

Definition to_marker (o : Loader.MapMarkerResponseDto) : Marker :=
  {| m_id := Loader.id o; m_lat := Loader.lat o; m_lon := Loader.lon o |}.

(** The callback of [markerList.map]: marker [i] is made from [o] and gets
    its two hover listeners. *)
Definition create_marker (i : nat) (o : Loader.MapMarkerResponseDto) (w : World)
  : World :=
  let m := {| m_id := Loader.id o; m_lat := Loader.lat o; m_lon := Loader.lon o |} in
  let w := {| page := page w; loader := loader w; map_built := map_built w;
              markers := markers w ++ [m]; clusters := clusters w;
              clusterer := clusterer w; listeners := listeners w;
              next_handle := next_handle w |} in
  let w := fst (addListener (TMarker i) mouseover (MarkerHoverEnter i) w) in
  fst (addListener (TMarker i) mouseout (MarkerHoverLeave i) w).

Fixpoint create_markers (i : nat) (l : list Loader.MapMarkerResponseDto) (w : World)
  : World :=
  match l with
  | [] => w
  | o :: l => create_markers (S i) l (create_marker i o w)
  end.

(** [markers.forEach((m, idx) => addListener(m, 'click', ...))] *)
Definition register_clicks (w : World) : World :=
  foldl (fun w i => fst (addListener (TMarker i) click (MarkerClick i) w)) w
        (seq 0 (length (markers w))).

Definition thumbnail (id : string) : string := "/api/assets/" +:+ id +:+ "/thumbnail".

(** [stylingFunction(clusterMarker, count)], called by the clusterer each
    time it draws cluster marker [c]. *)
Definition stylingFunction (c : nat) (count : Z) (w : World) : Exc.t World :=
  match clusters w !! c with
  | None => Exc.Throw Exc.TypeError
  | Some cl =>
      try! w <-
        match getElement cl with
        | Some _ =>
            match _clusterMember cl with
            | m :: _ =>
                let el := {| badge := String_of count; img_src := thumbnail (m_id m) |} in
                Exc.Ok (with_clusters
                          (<[c := {| _clusterMember := _clusterMember cl;
                                     getElement := Some el |}]> (clusters w)) w)
            | [] => Exc.Throw Exc.TypeError      (* cluster._clusterMember[0].id *)
            end
        | None => Exc.Ok w
        end;
      let w := fst (addListener (TClusterMarker c) click (ClusterClick c) w) in
      let w := fst (addListener (TClusterMarker c) mouseover (ClusterHoverEnter c) w) in
      let w := fst (addListener (TClusterMarker c) mouseout (ClusterHoverLeave c) w) in
      Exc.Ok w
  end.

(** What a registered closure does when it is called.  The hover closures
    only restyle the marker's element, which this state does not hold. *)
Definition run_handler (w : World) (h : Handler) : World :=
  match h with
  | MarkerClick i =>
      match markers w !! i with
      | Some m => with_page (Viewer.onViewAssets [m_id m] (page w)) w
      | None => w
      end
  | ClusterClick c =>
      match clusters w !! c with
      | Some cl =>
          let ids := m_id <$> _clusterMember cl in
          with_page (Viewer.onViewAssets ids (page w)) w
      | None => w
      end
  | _ => w
  end.

(** The listeners of [t] for [e], in registration order. *)
Definition listeners_of (t : Target) (e : EventName) (w : World) : list Listener :=
  filter (fun l => target l = t /\ event l = e) (listeners w).

(** The closures registered on [t] for [e], in call order. *)
Definition handlers_of (t : Target) (e : EventName) (w : World) : list Handler :=
  handler <$> listeners_of t e w.

(** The map library fires [e] on [t]. *)
Definition dispatch (t : Target) (e : EventName) (w : World) : World :=
  foldl run_handler w (handler <$> listeners_of t e w).

(** What the cleanup closure captured besides the component's variables. *)
Record Cleanup : Type := mkCleanup {
  idleListener : nat
}.

(** The body of [onMount] from the map construction on. *)
Definition build (markerList : list Loader.MapMarkerResponseDto) (w : World)
  : World * Cleanup :=
  let w := {| page := page w; loader := loader w; map_built := true;
              markers := []; clusters := clusters w; clusterer := clusterer w;
              listeners := listeners w; next_handle := next_handle w |} in
  let w := create_markers 0 markerList w in
  let w := with_clusterer Attached w in                (* new window.MarkerClustering({...}) *)
  let '(w, h) := addListener TMap idle IdleLog w in
  let w := register_clicks w in
  (w, {| idleListener := h |}).

(** The closure at the end of the [try] block: [() => {
    removeListener(idleListener); mc?.setMap(null);
    abortController?.abort(); }], as it acts when it is called. *)
Definition teardown (c : Cleanup) (w : World) : World :=
  let w := removeListener (idleListener c) w in
  let w := with_clusterer (match clusterer w with
                           | NoClusterer => NoClusterer
                           | _ => Detached
                           end) w in
  with_loader (Loader.abort_current (loader w)) w.

(** What a function handed to Svelte's [onMount] gives back when Svelte
    calls it: a function, or the promise of an async function ([v] is what
    the promise resolves with in the end), or nothing. *)
Inductive CallbackResult : Type :=
| ReturnsFunction (c : Cleanup)
| ReturnsPromise (v : option Cleanup)
| ReturnsNothing.

(** Svelte's contract for [onMount]: "if a function is returned
    synchronously from onMount, it will be called when the component is
    unmounted".  Anything else the callback returns, a promise included,
    is ignored.  Svelte is a library the page imports. *)
Definition kept_cleanup (r : CallbackResult) : option Cleanup :=
  match r with
  | ReturnsFunction c => Some c
  | ReturnsPromise _ | ReturnsNothing => None
  end.

(** [w'] has the listeners of [w] and, after them, new ones that are all
    on markers and carry handles from [next_handle w] up; the rest of the
    component, but for the marker array, ixs the same. *)
Definition grows (w w' : World) : Prop :=
  page w' = page w /\ loader w' = loader w /\ clusters w' = clusters w /\
  clusterer w' = clusterer w /\
  next_handle w <= next_handle w' /\
  exists added,
    listeners w' = listeners w ++ added /\
    Forall (fun l => next_handle w <= handle l < next_handle w' /\ target l <> TMap)
           added.

Section WithClock.
Context `{Clock}.

(** The function the page hands to [onMount]: [async () => { try { ... }
    catch (e) {} }].  [scripts] is how [await loadNaverStack()] ended and
    [fetched] how the marker fetch did; the result is the component once
    the function has run to its end and the value the function's promise
    resolves with: the cleanup closure, or nothing. *)
Definition onMount_callback (scripts : Exc.t unit) (now : Instant)
    (fetched : Exc.t (list Loader.MapMarkerResponseDto)) (w : World)
  : World * option Cleanup :=
  match scripts with
  | Exc.Throw _ => (w, None)
  | Exc.Ok _ =>
      let '(l, r) := Loader.loadMapMarkers now (loader w) in
      match fetched with
      | Exc.Throw e => (with_loader (Loader.settle r (Loader.Rejected e) l) w, None)
      | Exc.Ok markerList =>
          let w := with_loader (Loader.settle r (Loader.Fulfilled markerList) l) w in
          let '(w, c) := build markerList w in
          (w, Some c)
      end
  end.

(** The component while the callback is suspended at
    [await loadMapMarkers()]: the fetch is issued and not yet settled. *)
Definition awaiting_fetch (now : Instant) (w : World) : World :=
  with_loader (fst (Loader.loadMapMarkers now (loader w))) w.

(** [onMount(async () => { ... })] as the page calls it.  The callback is
    async, so what Svelte receives from it is a promise: no cleanup is
    kept, whatever the promise resolves with later.  The result is the
    component once the callback has run to its end, and the cleanup
    Svelte holds for the unmount. *)
Definition onMount (scripts : Exc.t unit) (now : Instant)
    (fetched : Exc.t (list Loader.MapMarkerResponseDto)) (w : World)
  : World * option Cleanup :=
  let r := onMount_callback scripts now fetched w in
  (fst r, kept_cleanup (ReturnsPromise (snd r))).

End WithClock.

(** The component is unmounted: Svelte calls the cleanup it holds. *)
Definition unmount (kept : option Cleanup) (w : World) : World :=
  match kept with
  | Some c => teardown c w
  | None => w
  end.

(** Sample data: one fetched marker, and a drawn cluster of three. *)
Definition seoul : QArith_base.Q := QArith_base.Qmake 75133 2000.
Definition han : QArith_base.Q := QArith_base.Qmake 253956 2000.

Definition one_marker : list Loader.MapMarkerResponseDto :=
  [{| Loader.id := "m1"; Loader.lat := seoul; Loader.lon := han |}].

Definition three_members : World :=
  {| page := Viewer.initial;
     loader := Loader.initial last_week;
     map_built := true;
     markers := [];
     clusters :=
       [{| _clusterMember :=
             [{| m_id := "m1"; m_lat := seoul; m_lon := han |};
              {| m_id := "m2"; m_lat := seoul; m_lon := han |};
              {| m_id := "m3"; m_lat := seoul; m_lon := han |}];
           getElement := Some {| badge := Markup "03344";
                                           img_src := "" |} |}];
     clusterer := Attached;
     listeners := [];
     next_handle := 0 |}.

Definition three_members_styled : World :=
  match stylingFunction 0 3 three_members with
  | Exc.Ok w => w
  | Exc.Throw _ => three_members
  end.

End Lifecycle.

(** ** The viewer as the user drives it *)

Module Navigation.
Import Viewer.

(** A press of the viewer's next or previous control. *)
Inductive Move : Type := Next | Previous.

Definition move (p : Page) (m : Move) : Page :=
  match m with
  | Next => fst (navigateNext p)
  | Previous => fst (navigatePrevious p)
  end.

Definition walk (ms : list Move) (p : Page) : Page := foldl move p ms.

(** [showNavigation={viewingAssets.length > 1}] *)
Definition showNavigation (p : Page) : bool :=
  (JS.length (viewingAssets p) >? 1)%Z.

(** The viewer shows the asset under the cursor of an open session. *)
Definition shows_cursor (p : Page) : Prop :=
  is_open p /\
  viewingAsset p = JS.index (viewingAssets p) (viewingAssetCursor p) /\
  isViewing p = true.

End Navigation.

(** ** MarkerPresenter: the hover closures *)

Module Presenter.

(** The style properties of a marker element that the closures write. *)
Record Style : Type := mkStyle {
  transition : string;
  transformOrigin : string;
  transform : string;
  zIndex : string
}.

Inductive Kind : Type := OfMarker | OfCluster.

(** The ['mouseover'] closure; [el] is what [getElement()] returned.  The
    marker closure assigns ['900'] to [zIndex], the cluster closure [1]. *)
Definition mouseover (k : Kind) (el : option Style) : option Style :=
  match el with
  | None => None                                    (* if (!el) return *)
  | Some _ =>
      Some {| transition := "transform 120ms ease";
              transformOrigin := "center";
              transform := "translateZ(0) scale(1.08)";
              zIndex := match k with OfMarker => "900" | OfCluster => "1" end |}
  end.

(** The ['mouseout'] closure, the same for markers and clusters. *)
Definition mouseout (el : option Style) : option Style :=
  match el with
  | None => None
  | Some s =>
      Some {| transition := transition s;
              transformOrigin := transformOrigin s;
              transform := "scale(1)";
              zIndex := "" |}
  end.

Inductive Hover : Type := Enter | Leave.

Definition hover (k : Kind) (el : option Style) (h : Hover) : option Style :=
  match h with
  | Enter => mouseover k el
  | Leave => mouseout el
  end.

Definition hovers (k : Kind) (hs : list Hover) (el : option Style) : option Style :=
  foldl (hover k) el hs.

(** Whether the pointer has entered at least once. *)
Definition entered (hs : list Hover) : bool :=
  existsb (fun h => match h with Enter => true | Leave => false end) hs.

End Presenter.

(** ** Counting loads and controllers *)

Module Fetches.
Import Filter Loader.

(** Every controller but the current one has been aborted, and the current
    one is among those allocated. *)
Definition superseded_aborted (st : State) : Prop :=
  (forall c, abortController st = Some c -> c < length (aborted st)) /\
  (forall c b, aborted st !! c = Some b -> abortController st <> Some c -> b = true).

(** Fetch [i] holds the signal of controller [i], and there are as many
    of each as there were loads. *)
Definition one_controller_each (n : nat) (st : State) : Prop :=
  length (requests st) = n /\ length (aborted st) = n /\
  forall i r, requests st !! i = Some r -> signal r = i.

Section WithClock.
Context `{Clock}.

Definition is_load (e : Event) : bool :=
  match e with Load _ => true | _ => false end.

(** Number of [loadMapMarkers] calls among the events. *)
Definition loads (evs : list Event) : nat :=
  length (filter (fun e => is_load e = true) evs).

End WithClock.

End Fetches.

(** ** Reading the bootstrapper's state *)

Module Bootstrap.
Import Scripts.

(** What [settle] does to a promise: only a pending one changes. *)
Definition settle_pending (to : PromiseState) (s : PromiseState) : PromiseState :=
  match s with
  | PPending => to
  | _ => s
  end.

(** [appendScriptOnce]'s test [s.src === src] on one element. *)
Definition matches (h : string -> string) (src : string) (s : ScriptEl) : Prop :=
  src_property h s = src.

#[global] Instance matches_dec (h : string -> string) (src : string) (s : ScriptEl) :
  Decision (matches h src s).
Proof. unfold matches. apply _. Defined.

(** Every promise an element holds is one that [appendScriptOnce] made. *)
Definition waiters_known (d : Dom) : Prop :=
  forall i s q, scripts d !! i = Some s -> q ∈ waiters s -> q < length (promises d).

(** Promise [p] is pending and no element that can still fire holds it. *)
Definition stranded (p : nat) (d : Dom) : Prop :=
  promises d !! p = Some PPending /\
  forall i s, scripts d !! i = Some s -> load_state s = Loading -> p ∉ waiters s.

(** What keeps a stranded promise stranded. *)
Definition stays_stranded (p : nat) (d : Dom) : Prop :=
  stranded p d /\ waiters_known d /\ p < length (promises d).

(** A window in which both libraries are present. *)
Definition all_ready : Window := {| naver_maps := true; MarkerClustering := true |}.

End Bootstrap.

(** ** Reading the listener registry *)

Module Registry.
Import Lifecycle.

(** No two registered listeners share a handle, and every handle given out
    lies below the next one to give. *)
Definition handles_fresh (w : World) : Prop :=
  NoDup (handle <$> listeners w) /\
  Forall (fun l => handle l < next_handle w) (listeners w).

End Registry.

(** * Properties *)

(** ** JavaScript values *)

Lemma index_in_range {A} (xs : list A) (i : Z) :
  (0 <= i < JS.length xs)%Z -> is_Some (JS.index xs i).
Proof.
  intros [Hlo Hhi]. unfold JS.index, JS.length in *.
  destruct (Z.ltb_spec i 0) as [Hneg | _]; [lia |].
  apply lookup_lt_is_Some. lia.
Qed.

Lemma index_nil {A} (i : Z) : JS.index (@nil A) i = None.
Proof. unfold JS.index. destruct (i <? 0)%Z; [done | by destruct (Z.to_nat i)]. Qed.

Lemma truthy_false (s : string) : JS.truthy s = false <-> s = "".
Proof. destruct s; simpl; split; congruence. Qed.

(** ** ViewerNavigator *)

Section ViewerFacts.
Import Viewer.

Lemma onViewAssets_session (ids : list string) (p : Page) :
  session (onViewAssets ids p) = (ids, 0%Z).
Proof. reflexivity. Qed.

(** [next()] at the end of the sequence, or past it: nothing changes. *)
Lemma navigateNext_at_end (q : Page) :
  ~ (viewingAssetCursor q < JS.length (viewingAssets q) - 1)%Z ->
  navigateNext q = (q, false).
Proof.
  intros Hge. unfold navigateNext.
  destruct (Z.ltb_spec (viewingAssetCursor q) (JS.length (viewingAssets q) - 1));
    [lia | reflexivity].
Qed.

(** [next()] before the end: the cursor moves by one, the ids stay, and
    the asset under the new cursor is displayed and navigated to. *)
Lemma navigateNext_before_end (q : Page) :
  (viewingAssetCursor q < JS.length (viewingAssets q) - 1)%Z ->
  let c := (viewingAssetCursor q + 1)%Z in
  navigateNext q =
    ({| viewingAssets := viewingAssets q;
        viewingAssetCursor := c;
        viewingAsset := JS.index (viewingAssets q) c;
        isViewing := true;
        calls := calls q ++ [SetAssetId (JS.index (viewingAssets q) c);
                             Navigate (JS.index (viewingAssets q) c)] |}, true).
Proof.
  intros Hlt c. unfold navigateNext.
  destruct (Z.ltb_spec (viewingAssetCursor q) (JS.length (viewingAssets q) - 1));
    [| lia].
  unfold navigate, setAssetId, set_session; simpl.
  by rewrite <- app_assoc.
Qed.

Lemma navigateNext_succeeds_iff (q : Page) :
  snd (navigateNext q) = true <->
  (viewingAssetCursor q < JS.length (viewingAssets q) - 1)%Z.
Proof.
  unfold navigateNext.
  destruct (Z.ltb_spec (viewingAssetCursor q) (JS.length (viewingAssets q) - 1));
    simpl; split; intros; (done || lia).
Qed.

(** C1 (as amended): from any state, [open(["a","b","c"])] followed by
    three [next()] gives the cursors 0, 1, 2, 2; the third [next()] returns
    failure and leaves the whole page, so also ids and cursor, as it was.
    In general [next()] succeeds exactly when cursor < len - 1, then moves
    the cursor by one and keeps the ids; otherwise it fails and changes
    nothing. *)
Theorem navigateNext_cursor_walk (p q : Page) :
  cursors_open_next3 abc p = [0; 1; 2; 2]%Z /\
  (let p2 := fst (navigateNext (fst (navigateNext (onViewAssets abc p)))) in
   navigateNext p2 = (p2, false)) /\
  (snd (navigateNext q) = true <->
     (viewingAssetCursor q < JS.length (viewingAssets q) - 1)%Z) /\
  ((viewingAssetCursor q < JS.length (viewingAssets q) - 1)%Z ->
     session (fst (navigateNext q)) =
       (viewingAssets q, (viewingAssetCursor q + 1)%Z)) /\
  (~ (viewingAssetCursor q < JS.length (viewingAssets q) - 1)%Z ->
     navigateNext q = (q, false)).
Proof.
  split; [reflexivity |].
  split; [reflexivity |].
  split; [apply navigateNext_succeeds_iff |].
  split; [| apply navigateNext_at_end].
  intros Hlt. by rewrite navigateNext_before_end.
Qed.

Lemma navigateNext_cursor_walk_witness :
  session (fst (navigateNext two_ids_at_start)) = (["x"; "y"], 1%Z) /\
  navigateNext two_ids_at_end = (two_ids_at_end, false).
Proof.
  split.
  - destruct (navigateNext_cursor_walk initial two_ids_at_start)
      as (_ & _ & _ & Hstep & _).
    apply Hstep. vm_compute. reflexivity.
  - destruct (navigateNext_cursor_walk initial two_ids_at_end)
      as (_ & _ & _ & _ & Hend).
    apply Hend. vm_compute. discriminate.
Defined.

(** C1 as stated fails: the cursors are not 0, 1, 1, 1. *)
Lemma navigateNext_cursor_walk_not_0111 :
  cursors_open_next3 abc initial <> [0; 1; 1; 1]%Z.
Proof. vm_compute. discriminate. Qed.

(** [open] calls the store and nothing else. *)
Lemma onViewAssets_calls (ids : list string) (p : Page) :
  calls (onViewAssets ids p) = calls p ++ [SetAssetId (JS.index ids 0)].
Proof. reflexivity. Qed.

(** C8: what [open(ids)] does from any state.  The cursor is 0, the ids
    are stored and [ids[0]] is displayed; the only call made is
    [setAssetId(ids[0])], so the shareable location is not updated, while
    a successful [next()] on the same ids does navigate. *)
Theorem onViewAssets_does_not_navigate (ids : list string) (p : Page) :
  let p' := onViewAssets ids p in
  session p' = (ids, 0%Z) /\
  viewingAsset p' = JS.index ids 0 /\
  isViewing p' = true /\
  calls p' = calls p ++ [SetAssetId (JS.index ids 0)] /\
  (forall a, Navigate a ∉ drop (length (calls p)) (calls p')) /\
  (ids <> [] -> is_open p') /\
  calls (fst (navigateNext (onViewAssets abc p))) =
    calls p ++ [SetAssetId (Some "a"); SetAssetId (Some "b"); Navigate (Some "b")].
Proof.
  intros p'. split; [done |]. split; [done |]. split; [done |].
  split; [done |]. split; [| split].
  - intros a. subst p'. rewrite onViewAssets_calls, drop_app_length.
    intros Hin. apply list_elem_of_singleton in Hin. discriminate.
  - intros Hne. split; [done |]. subst p'. simpl. unfold JS.length.
    destruct ids; [done | simpl; lia].
  - unfold navigateNext; simpl. by rewrite <- !app_assoc.
Qed.

Lemma onViewAssets_does_not_navigate_witness :
  is_open (onViewAssets abc initial) /\
  calls (onViewAssets abc initial) = [SetAssetId (Some "a")].
Proof.
  destruct (onViewAssets_does_not_navigate abc initial)
    as (_ & _ & _ & Hcalls & _ & Hopen & _).
  split; [apply Hopen; discriminate | exact Hcalls].
Defined.

(** C10: [open([])] is not rejected.  The session becomes ([], 0), the
    display call receives [undefined], and the page is then not in the
    open state of the spec. *)
Theorem onViewAssets_empty (p : Page) :
  let p' := onViewAssets [] p in
  session p' = ([], 0%Z) /\
  calls p' = calls p ++ [SetAssetId None] /\
  viewingAsset p' = None /\
  ~ is_open p'.
Proof.
  intros p'. repeat split.
  intros [Hne _]. by apply Hne.
Qed.

End ViewerFacts.

(** ** Filter derivation *)

Section FilterFacts.
Import Filter.
Context `{Clock}.

Lemma iso_or_undefined_fails (x : string) :
  JS.truthy x = true -> Date_parse x = None ->
  iso_or_undefined x = Exc.Throw Exc.RangeError.
Proof.
  intros Ht Hp. unfold iso_or_undefined, Date_toISOString.
  by rewrite Ht, Hp.
Qed.

(** C5 (as amended): with a valid relative duration [d] configured, the
    derivation at reference time [now] leaves [fileCreatedBefore] unset and
    the store as it was, whatever absolute dates are stored;
    [fileCreatedAfter] is the ISO string of [now - d] when that date-time
    can be represented, and [null] otherwise. *)
Theorem getFileCreatedDates_relative (now : Instant) (s : MapSettings) (d : Duration) :
  JS.truthy (relativeDate s) = true ->
  Duration_fromISO (relativeDate s) = Some d ->
  getFileCreatedDates now s =
    (s, {| fileCreatedAfter := match toISO (minus now d) with
                               | Some iso => JS.Str iso
                               | None => JS.Null
                               end;
           fileCreatedBefore := None |}) /\
  (forall a b,
     snd (getFileCreatedDates now (with_absolute a b s)) =
       snd (getFileCreatedDates now s)) /\
  (forall iso, toISO (minus now d) = Some iso ->
     fileCreatedAfter (snd (getFileCreatedDates now s)) = JS.Str iso) /\
  (toISO (minus now d) = None ->
     fileCreatedAfter (snd (getFileCreatedDates now s)) = JS.Null).
Proof.
  intros Hrel Hdur.
  assert (Hg : forall a b,
            getFileCreatedDates now (with_absolute a b s) =
              (with_absolute a b s,
               {| fileCreatedAfter := match toISO (minus now d) with
                                      | Some iso => JS.Str iso
                                      | None => JS.Null
                                      end;
                  fileCreatedBefore := None |})).
  { intros a b. unfold getFileCreatedDates, with_absolute; simpl.
    by rewrite Hrel, Hdur. }
  assert (Hs : getFileCreatedDates now s =
                 (s, {| fileCreatedAfter := match toISO (minus now d) with
                                            | Some iso => JS.Str iso
                                            | None => JS.Null
                                            end;
                        fileCreatedBefore := None |})).
  { unfold getFileCreatedDates. by rewrite Hrel, Hdur. }
  split; [exact Hs |]. split; [intros a b; by rewrite Hg, Hs |].
  rewrite Hs. simpl. split.
  - by intros iso ->.
  - by intros ->.
Qed.

(** The catch branch of the derivation. *)
Lemma getFileCreatedDates_catch (now : Instant) (s : MapSettings) :
  absolute_parse_fails s ->
  getFileCreatedDates now s = (clear_dates s, empty_dates).
Proof.
  intros [Hrel Hfail]. unfold getFileCreatedDates. rewrite Hrel.
  destruct Hfail as [[Ht Hp] | [Ht Hp]].
  - by rewrite (iso_or_undefined_fails _ Ht Hp).
  - rewrite (iso_or_undefined_fails (dateBefore s) Ht Hp).
    by destruct (iso_or_undefined (dateAfter s)).
Qed.

End FilterFacts.

(** ** MarkerDataLoader *)

Section LoaderFacts.
Import Filter Loader Fetches.
Context `{Clock}.

Lemma abort_current_settings (st : State) :
  settings (abort_current st) = settings st.
Proof. unfold abort_current. by destruct (abortController st). Qed.

Lemma loadMapMarkers_eq (now : Instant) (st : State) :
  loadMapMarkers now st =
    ({| settings := fst (getFileCreatedDates now (settings st));
        abortController := Some (length (aborted (abort_current st)));
        aborted := aborted (abort_current st) ++ [false];
        requests := requests (abort_current st) ++ [issued now st] |},
     length (requests (abort_current st))).
Proof.
  unfold loadMapMarkers, issued. simpl.
  rewrite abort_current_settings.
  destruct (getFileCreatedDates now (settings st)) as [s' dates]; simpl.
  unfold getMapMarkers; simpl.
  rewrite lookup_app_r by lia. by rewrite Nat.sub_diag.
Qed.

Lemma abort_request_pending (c : nat) (r : Request) :
  is_pending (abort_request c r) = true ->
  is_pending r = true /\ signal r <> c.
Proof.
  unfold abort_request.
  destruct (is_pending r) eqn:Hp; simpl; [| by rewrite Hp].
  destruct (Nat.eqb_spec (signal r) c); [done |]. by rewrite Hp.
Qed.

(** Aborting the current controller leaves no fetch pending, as long as
    the pending ones all hold its signal. *)
Lemma abort_current_none_pending (st : State) :
  only_newest_pending st ->
  forall i r, requests (abort_current st) !! i = Some r -> is_pending r = false.
Proof.
  intros Hinv i r Hi. destruct (is_pending r) eqn:Hp; [exfalso | done].
  unfold abort_current in Hi. destruct (abortController st) as [c |] eqn:Hc.
  - simpl in Hi. rewrite list_lookup_fmap in Hi.
    destruct (requests st !! i) as [r0 |] eqn:Hr0; [| done].
    injection Hi as <-. apply abort_request_pending in Hp as [Hp0 Hne].
    destruct (Hinv i r0 Hr0 Hp0) as [_ Hsig]. congruence.
  - destruct (Hinv i r Hi Hp) as [_ Hsig]. congruence.
Qed.

Lemma only_newest_pending_load (now : Instant) (st : State) :
  only_newest_pending st -> only_newest_pending (fst (loadMapMarkers now st)).
Proof.
  intros Hinv. rewrite loadMapMarkers_eq. intros i r Hi Hp. simpl in *.
  apply lookup_app_Some in Hi as [Hi | [Hge Hi]].
  - by rewrite (abort_current_none_pending st Hinv i r Hi) in Hp.
  - rewrite length_app; simpl.
    destruct (i - length (requests (abort_current st))) eqn:Hd; [| done].
    injection Hi as <-. split; [lia | done].
Qed.

Lemma only_newest_pending_settle (r : nat) (s : Status) (st : State) :
  only_newest_pending st -> only_newest_pending (settle r s st).
Proof.
  intros Hinv. unfold settle.
  destruct (requests st !! r) as [rq |] eqn:Hr; [| done].
  destruct (is_pending rq) eqn:Hp; [| done].
  intros i x Hi Hx. simpl in *. rewrite length_insert.
  destruct (decide (r = i)) as [-> | Hne].
  - rewrite list_lookup_insert_eq in Hi by (by eapply lookup_lt_Some).
    injection Hi as <-. simpl. by apply Hinv.
  - rewrite list_lookup_insert_ne in Hi by done. by apply Hinv.
Qed.

Lemma only_newest_pending_abort_current (st : State) :
  only_newest_pending st -> only_newest_pending (abort_current st).
Proof.
  intros Hinv i r Hi Hp.
  by rewrite (abort_current_none_pending st Hinv i r Hi) in Hp.
Qed.

Lemma only_newest_pending_step (st : State) (e : Event) :
  only_newest_pending st -> only_newest_pending (step st e).
Proof.
  intros Hinv. destruct e; simpl.
  - by apply only_newest_pending_load.
  - by apply only_newest_pending_settle.
  - by apply only_newest_pending_settle.
  - by apply only_newest_pending_abort_current.
  - exact Hinv.
Qed.

Lemma only_newest_pending_run (evs : list Event) (st : State) :
  only_newest_pending st -> only_newest_pending (run evs st).
Proof.
  revert st. induction evs as [| e evs IH]; intros st Hinv; [done |].
  simpl. apply IH. by apply only_newest_pending_step.
Qed.

Lemma only_newest_pending_initial (s : MapSettings) :
  only_newest_pending (initial s).
Proof. intros i r Hi. done. Qed.

Lemma filter_none {A} (f : A -> bool) (l : list A) :
  Forall (fun x => f x = false) l -> filter (fun x => f x = true) l = [].
Proof.
  induction 1 as [| x l Hx _ IH]; [done |].
  rewrite filter_cons_False by congruence. exact IH.
Qed.

(** If only the last element of a list can satisfy [f], at most one does. *)
Lemma filter_only_last {A} (f : A -> bool) (l : list A) :
  (forall i x, l !! i = Some x -> f x = true -> S i = length l) ->
  length (filter (fun x => f x = true) l) <= 1.
Proof.
  intros Hlast. destruct l as [| y l' _] using rev_ind; [simpl; lia |].
  rewrite filter_app, filter_none.
  - simpl. rewrite filter_singleton; [| exact l']. case_decide; simpl; lia.
  - apply Forall_lookup. intros i x Hi.
    destruct (f x) eqn:Hf; [exfalso | done].
    pose proof (lookup_lt_Some _ _ _ Hi) as Hlt.
    specialize (Hlast i x (lookup_app_l_Some _ _ _ _ Hi) Hf).
    rewrite length_app in Hlast. simpl in Hlast. lia.
Qed.

Lemma superseded_aborted_abort_current (st : State) :
  superseded_aborted st ->
  superseded_aborted (abort_current st) /\
  forall c b, aborted (abort_current st) !! c = Some b -> b = true.
Proof.
  intros [Hcur Hold]. unfold abort_current.
  destruct (abortController st) as [k |] eqn:Hk.
  - assert (Hall : forall c b, <[k := true]> (aborted st) !! c = Some b -> b = true).
    { intros c b Hc. destruct (decide (k = c)) as [-> | Hne].
      - rewrite list_lookup_insert_eq in Hc by (by apply Hcur). congruence.
      - rewrite list_lookup_insert_ne in Hc by done.
        apply (Hold c b Hc). congruence. }
    split; [| exact Hall]. split; simpl.
    + intros c Hc. rewrite length_insert. apply Hcur. congruence.
    + intros c b Hc _. by apply (Hall c b).
  - assert (Hall : forall c b, aborted st !! c = Some b -> b = true).
    { intros c b Hc. apply (Hold c b Hc). congruence. }
    split; [| exact Hall]. split.
    + intros c Hc. congruence.
    + intros c b Hc _. by apply (Hall c b).
Qed.

Lemma superseded_aborted_step (e : Event) (st : State) :
  superseded_aborted st -> superseded_aborted (step st e).
Proof.
  intros Hinv. destruct e; simpl.
  - rewrite loadMapMarkers_eq. simpl.
    destruct (superseded_aborted_abort_current st Hinv) as [_ Hall].
    split; simpl.
    + intros c [= <-]. rewrite length_app. simpl. lia.
    + intros c b Hc Hne. apply lookup_app_Some in Hc as [Hc | [Hge Hc]].
      * by apply (Hall c b).
      * destruct (c - length (aborted (abort_current st))) eqn:Hd; [| done].
        exfalso. apply Hne. f_equal. lia.
  - unfold settle. destruct (requests st !! r); [| done]. by destruct (is_pending _).
  - unfold settle. destruct (requests st !! r); [| done]. by destruct (is_pending _).
  - by apply superseded_aborted_abort_current.
  - done.
Qed.

Lemma superseded_aborted_run (evs : list Event) (st : State) :
  superseded_aborted st -> superseded_aborted (run evs st).
Proof.
  revert st. induction evs as [| e evs IH]; intros st Hinv; [done |].
  simpl. apply IH. by apply superseded_aborted_step.
Qed.

(** C2: after any sequence of loads, answers, failures, runs of the
    cleanup's abort and filter edits, at most one fetch is in flight and it
    is the newest one.  A further load first aborts what went before: the
    controller that was current is aborted, and every earlier fetch that
    was still pending is rejected with an AbortError (a settled one keeps
    its outcome); only then is its own fetch issued, pending, on a new
    controller that is not aborted.  The answer to any older fetch is
    dropped. *)
Theorem loadMapMarkers_supersedes (s : MapSettings) (evs : list Event) :
  let st := run evs (initial s) in
  length (in_flight st) <= 1 /\
  (forall i r, requests st !! i = Some r -> is_pending r = true ->
     S i = length (requests st)) /\
  (forall now,
     let st' := fst (loadMapMarkers now st) in
     (forall i, i < length (requests st) ->
        exists r, requests st' !! i = Some r /\ is_pending r = false) /\
     requests st' !! length (requests st) = Some (issued now st) /\
     in_flight st' = [issued now st] /\
     (forall i r, requests st !! i = Some r ->
        requests st' !! i =
          Some (if is_pending r
                then {| query := query r; signal := signal r;
                        status := Rejected Exc.AbortError |}
                else r)) /\
     (forall c, abortController st = Some c -> aborted st' !! c = Some true) /\
     abortController st' = Some (signal (issued now st)) /\
     aborted st' !! signal (issued now st) = Some false /\
     abortController st <> Some (signal (issued now st))) /\
  (forall i ms, S i < length (requests st) -> step st (Respond i ms) = st).
Proof.
  intros st.
  assert (Hinv : only_newest_pending st)
    by apply only_newest_pending_run, only_newest_pending_initial.
  assert (Hctl : superseded_aborted st).
  { apply superseded_aborted_run. split; [done |]. intros c b Hc. done. }
  assert (Hlen : forall st0, length (requests (abort_current st0)) = length (requests st0)).
  { intros st0. unfold abort_current. destruct (abortController st0); [| done].
    simpl. by rewrite length_fmap. }
  assert (Hlena : length (aborted (abort_current st)) = length (aborted st)).
  { unfold abort_current. destruct (abortController st); [| done].
    simpl. by rewrite length_insert. }
  split; [| split; [| split]].
  - apply filter_only_last. intros i r Hi Hp. by apply (Hinv i r).
  - intros i r Hi Hp. by apply (Hinv i r).
  - intros now st'. subst st'. rewrite loadMapMarkers_eq. simpl.
    split; [| split; [| split; [| split; [| split; [| split; [| split]]]]]].
    + intros i Hi. rewrite <- Hlen in Hi.
      destruct (lookup_lt_is_Some_2 _ _ Hi) as [r Hr].
      exists r. split; [by apply lookup_app_l_Some |].
      by apply (abort_current_none_pending st Hinv i).
    + rewrite <- Hlen. rewrite lookup_app_r by lia. by rewrite Nat.sub_diag.
    + unfold in_flight. simpl. rewrite filter_app, filter_none.
      * reflexivity.
      * apply Forall_lookup. intros i r.
        apply (abort_current_none_pending st Hinv).
    + intros i r Hi. apply lookup_app_l_Some. unfold abort_current.
      destruct (is_pending r) eqn:Hp.
      * destruct (Hinv i r Hi Hp) as [_ Hcur]. rewrite Hcur. simpl.
        rewrite list_lookup_fmap, Hi. simpl. unfold abort_request.
        by rewrite Hp, Nat.eqb_refl.
      * destruct (abortController st) as [c |]; [| done]. simpl.
        rewrite list_lookup_fmap, Hi. simpl. unfold abort_request. by rewrite Hp.
    + intros c Hc. destruct Hctl as [Hcur _]. specialize (Hcur c Hc).
      rewrite lookup_app_l by lia. unfold abort_current. rewrite Hc. simpl.
      by apply list_lookup_insert_eq.
    + done.
    + rewrite lookup_app_r by lia. by rewrite Nat.sub_diag.
    + intros Hc. destruct Hctl as [Hcur _]. specialize (Hcur _ Hc). lia.
  - intros i ms Hi. simpl. unfold settle.
    destruct (requests st !! i) as [rq |] eqn:Hr; [| done].
    destruct (is_pending rq) eqn:Hp; [| done].
    destruct (Hinv i rq Hr Hp) as [Hlast _]. lia.
Qed.

End LoaderFacts.

Section ParseFailure.
Import Filter Loader.
Context `{Clock}.

(** C6: when a stored absolute date does not parse, the derivation
    returns through its catch branch: both stored fields are cleared, the
    returned filter is empty, nothing is thrown, and the load goes on to
    issue a pending fetch without date bounds. *)
Theorem getFileCreatedDates_parse_failure (now : Instant) (st : State) :
  absolute_parse_fails (settings st) ->
  getFileCreatedDates now (settings st) = (clear_dates (settings st), empty_dates) /\
  dateAfter (settings (fst (loadMapMarkers now st))) = "" /\
  dateBefore (settings (fst (loadMapMarkers now st))) = "" /\
  exists rq,
    requests (fst (loadMapMarkers now st)) !! snd (loadMapMarkers now st) = Some rq /\
    status rq = Pending /\
    q_fileCreatedAfter (query rq) = None /\
    q_fileCreatedBefore (query rq) = None.
Proof.
  intros Hfail.
  pose proof (getFileCreatedDates_catch now (settings st) Hfail) as Hcatch.
  split; [exact Hcatch |].
  rewrite loadMapMarkers_eq. simpl. rewrite Hcatch. simpl.
  split; [done |]. split; [done |].
  exists (issued now st). split.
  - rewrite lookup_app_r by lia. by rewrite Nat.sub_diag.
  - unfold issued. simpl. by rewrite Hcatch.
Qed.

End ParseFailure.

(** The theorems above at a concrete clock and concrete settings. *)

Lemma getFileCreatedDates_relative_witness :
  @Filter.getFileCreatedDates Filter.toy_clock 1700000000000%Z Filter.last_week =
    (Filter.last_week, {| Filter.fileCreatedAfter := JS.Str "1699395200000";
                   Filter.fileCreatedBefore := None |}).
Proof.
  apply (@getFileCreatedDates_relative Filter.toy_clock 1700000000000%Z Filter.last_week
           604800000%Z); reflexivity.
Defined.

(** C5 (as first stated, refuted): a valid duration does not always give
    an ISO string.  ["P1000000000Y"] is a valid ISO-8601 duration, but a
    thousand million years before any present moment is further from the
    epoch than a date-time reaches: [minus] gives an invalid date-time,
    [toISO] returns [null], and [fileCreatedAfter] is [null], not a
    string. *)
Lemma getFileCreatedDates_relative_out_of_range :
  let now : @Filter.Instant Filter.toy_clock := 1700000000000%Z in
  JS.truthy (Filter.relativeDate Filter.since_ever) = true /\
  @Filter.Duration_fromISO Filter.toy_clock (Filter.relativeDate Filter.since_ever) =
    Some 31556952000000000000%Z /\
  @Filter.getFileCreatedDates Filter.toy_clock now Filter.since_ever =
    (Filter.since_ever, {| Filter.fileCreatedAfter := JS.Null;
                           Filter.fileCreatedBefore := None |}) /\
  (forall iso,
     Filter.fileCreatedAfter
       (snd (@Filter.getFileCreatedDates Filter.toy_clock now Filter.since_ever)) <>
     JS.Str iso).
Proof.
  intros now. split; [reflexivity |]. split; [reflexivity |].
  split; [reflexivity |]. intros iso Heq. vm_compute in Heq. discriminate Heq.
Qed.

Lemma getFileCreatedDates_parse_failure_witness :
  @Filter.getFileCreatedDates Filter.toy_clock 5%Z Filter.bad_after =
    (@Filter.clear_dates Filter.bad_after, Filter.empty_dates).
Proof.
  apply (@getFileCreatedDates_parse_failure Filter.toy_clock 5%Z
           (Loader.initial Filter.bad_after)).
  split; [reflexivity |]. left. split; reflexivity.
Defined.

Lemma loadMapMarkers_supersedes_witness :
  let st := @Loader.run Filter.toy_clock
              [Loader.Load (1%Z : @Filter.Instant Filter.toy_clock);
               Loader.Load (2%Z : @Filter.Instant Filter.toy_clock)]
              (Loader.initial Filter.last_week) in
  @Loader.step Filter.toy_clock st (Loader.Respond 0 []) = st /\
  Loader.status <$> Loader.requests st !! 1 = Some Loader.Pending /\
  Loader.status <$>
    Loader.requests (fst (@Loader.loadMapMarkers Filter.toy_clock 3%Z st)) !! 1 =
    Some (Loader.Rejected Exc.AbortError) /\
  Loader.aborted (fst (@Loader.loadMapMarkers Filter.toy_clock 3%Z st)) =
    [true; true; false].
Proof.
  intros st.
  destruct (@loadMapMarkers_supersedes Filter.toy_clock Filter.last_week
              [Loader.Load (1%Z : @Filter.Instant Filter.toy_clock);
               Loader.Load (2%Z : @Filter.Instant Filter.toy_clock)])
    as (_ & _ & Hload & Hstale).
  destruct (Hload 3%Z) as (_ & _ & _ & Hsup & _).
  split; [apply Hstale; vm_compute; lia |].
  split; [reflexivity |].
  split; [| reflexivity].
  assert (Hr : exists r, Loader.requests st !! 1 = Some r /\ Loader.is_pending r = true)
    by (vm_compute; eauto).
  destruct Hr as (r & Hr & Hp).
  subst st. rewrite (Hsup 1 r Hr), Hp. reflexivity.
Defined.

(** ** ScriptBootstrapper *)

Section ScriptFacts.
Import Scripts.

Lemma string_length_app (a b : string) :
  String.length (a +:+ b) = String.length a + String.length b.
Proof. induction a as [| c a IH]; simpl; [done | by rewrite IH]. Qed.

(** A path never reads back as itself in the sample document. *)
Lemma photos_href_path (src : string) :
  String.prefix "/" src = true -> photos_href src <> src.
Proof.
  intros Hpath Heq. unfold photos_href in Heq. rewrite Hpath in Heq.
  apply (f_equal String.length) in Heq.
  rewrite string_length_app in Heq. simpl in Heq. lia.
Qed.

(** C3: two calls for the same [src] while nothing is ready, [src] being
    written in a form that does not read back as itself from an element
    (a path such as [/MarkerClustering.js], which reads back with the
    origin in front).  The element the first call inserted is not
    recognised by the second call, which inserts another one: the document
    ends with two script elements for the one [src], each with its own
    caller waiting on it. *)
Theorem appendScriptOnce_path_inserted_twice
    (h : string -> string) (src : string) (w : Window) (ready : Window -> bool) :
  h src <> src -> ready w = false ->
  let c1 := appendScriptOnce src ready (fresh_document h w []) in
  let c2 := appendScriptOnce src ready (fst c1) in
  scripts (fst c2) =
    [{| attr_src := Some src; load_state := Loading; waiters := [snd c1] |};
     {| attr_src := Some src; load_state := Loading; waiters := [snd c2] |}] /\
  count_src src (fst c2) = 2.
Proof.
  intros Hrel Hready c1 c2.
  assert (Hc1 : c1 = ({| href := h; window := w;
                         scripts := [{| attr_src := Some src; load_state := Loading;
                                        waiters := [0] |}];
                         promises := [PPending];
                         history := [Requested src 0] |}, 0)).
  { subst c1. unfold appendScriptOnce. simpl. by rewrite Hready. }
  assert (Hc2 : scripts (fst c2) =
                [{| attr_src := Some src; load_state := Loading; waiters := [0] |};
                 {| attr_src := Some src; load_state := Loading; waiters := [1] |}]
                /\ snd c2 = 1).
  { subst c2. rewrite Hc1. unfold appendScriptOnce. simpl. rewrite Hready.
    unfold list_find. simpl.
    destruct (decide _) as [Heq | _]; [| done].
    by apply Hrel in Heq. }
  destruct Hc2 as [Hs Hp]. rewrite Hp, Hs, Hc1. split; [done |].
  unfold count_src. rewrite Hs. simpl.
  rewrite !filter_cons_True by done. done.
Qed.

Lemma appendScriptOnce_path_inserted_twice_witness :
  count_src clusteringUrl
    (fst (appendScriptOnce clusteringUrl ready_clustering
            (fst (appendScriptOnce clusteringUrl ready_clustering
                    (fresh_document photos_href nothing_ready []))))) = 2.
Proof.
  apply (appendScriptOnce_path_inserted_twice photos_href clusteringUrl
           nothing_ready ready_clustering);
    [by apply photos_href_path | reflexivity].
Defined.

(** For an absolute URL the second caller does attach to the element of
    the first, and one [load] event resolves both. *)
Example appendScriptOnce_absolute_shared :
  let url := mapsUrl "KEY" in
  let c1 := appendScriptOnce url ready_maps (fresh_document photos_href nothing_ready []) in
  let c2 := appendScriptOnce url ready_maps (fst c1) in
  let d := fire_load 0 {| naver_maps := true; MarkerClustering := false |} (fst c2) in
  scripts (fst c2) = [{| attr_src := Some url; load_state := Loading; waiters := [0; 1] |}] /\
  promises d = [PResolved; PResolved].
Proof. vm_compute. done. Qed.

(** The error a caller gets names the [src] that caller passed, not the
    attribute of the element it attached to: here a tag written with a
    path, found by a caller that passes the absolute URL. *)
Example fire_error_names_the_callers_src :
  let tag := {| attr_src := Some "/MarkerClustering.js"; load_state := Loading;
                waiters := [] |} in
  let url := "https://photos.example.org/MarkerClustering.js" in
  let c := appendScriptOnce url ready_clustering
             (fresh_document photos_href nothing_ready [tag]) in
  scripts (fst c) =
    [{| attr_src := Some "/MarkerClustering.js"; load_state := Loading;
        waiters := [0] |}] /\
  promises (fire_error 0 (fst c)) = [PRejected (Exc.LoadError url)].
Proof. vm_compute. done. Qed.

(** A caller that arrives after the element has failed attaches to it as
    well; no event is left to settle its promise. *)
Example appendScriptOnce_after_error_pending :
  let url := mapsUrl "KEY" in
  let c1 := appendScriptOnce url ready_maps (fresh_document photos_href nothing_ready []) in
  let d1 := fire_error 0 (fst c1) in
  let c2 := appendScriptOnce url ready_maps d1 in
  promises d1 = [PRejected (Exc.LoadError url)] /\
  scripts (fst c2) = [{| attr_src := Some url; load_state := Errored; waiters := [0; 1] |}] /\
  promises (fst c2) = [PRejected (Exc.LoadError url); PPending] /\
  (forall w, fire_load 0 w (fst c2) = fst c2) /\
  fire_error 0 (fst c2) = fst c2.
Proof. vm_compute. done. Qed.

End ScriptFacts.

(** *** Order of the two loads *)

Section StackOrder.
Import Scripts.

Lemma promise_moves_same (hx : list Occurrence) (p : nat) (s : PromiseState) :
  promise_moves hx p s (Some s).
Proof. destruct s; simpl; auto. Qed.

Lemma evolves_refl (d : Dom) : evolves d d.
Proof.
  exists []. split; [by rewrite app_nil_r |].
  intros p s ->. apply promise_moves_same.
Qed.

Lemma evolves_trans (d1 d2 d3 : Dom) :
  evolves d1 d2 -> evolves d2 d3 -> evolves d1 d3.
Proof.
  intros (hx & Hh & Hp) (hy & Hh' & Hp').
  exists (hx ++ hy). split; [by rewrite Hh', Hh, app_assoc |].
  intros p s Hs. specialize (Hp p s Hs). destruct s; simpl in *.
  - destruct Hp as [Hp | [[Hp Hin] | [e Hp]]].
    + specialize (Hp' p _ Hp). simpl in Hp'.
      destruct Hp' as [? | [[? ?] | ?]]; [auto | | auto].
      right; left. split; [done |]. apply elem_of_app; auto.
    + specialize (Hp' p _ Hp). simpl in Hp'.
      right; left. split; [done |]. apply elem_of_app; auto.
    + specialize (Hp' p _ Hp). simpl in Hp'. right; right. by exists e.
  - by apply (Hp' p _ Hp).
  - by apply (Hp' p _ Hp).
Qed.

Lemma evolves_with_scripts (ss : list ScriptEl) (d : Dom) :
  evolves d (with_scripts ss d).
Proof.
  exists []. split; [simpl; by rewrite app_nil_r |].
  intros p s Hs. simpl. rewrite Hs. apply promise_moves_same.
Qed.

Lemma evolves_resolve (p : nat) (d : Dom) : evolves d (resolve p d).
Proof.
  unfold resolve. destruct (promises d !! p) as [[| |] |] eqn:Hp;
    try apply evolves_refl.
  exists [Resolved p]. split; [done |].
  intros q s Hq. simpl. destruct (decide (p = q)) as [<- | Hne].
  - rewrite list_lookup_insert_eq by (by eapply lookup_lt_Some).
    rewrite Hp in Hq. injection Hq as <-. simpl.
    right; left. split; [done |]. by apply list_elem_of_singleton.
  - rewrite list_lookup_insert_ne by done. rewrite Hq. apply promise_moves_same.
Qed.

Lemma evolves_reject (e : Exc.JSError) (p : nat) (d : Dom) :
  evolves d (reject e p d).
Proof.
  unfold reject. destruct (promises d !! p) as [[| |] |] eqn:Hp;
    try apply evolves_refl.
  exists []. split; [simpl; by rewrite app_nil_r |].
  intros q s Hq. simpl. destruct (decide (p = q)) as [<- | Hne].
  - rewrite list_lookup_insert_eq by (by eapply lookup_lt_Some).
    rewrite Hp in Hq. injection Hq as <-. simpl. right; right. by exists e.
  - rewrite list_lookup_insert_ne by done. rewrite Hq. apply promise_moves_same.
Qed.

Lemma evolves_foldl (f : nat -> Dom -> Dom) (ps : list nat) (d : Dom) :
  (forall p d0, evolves d0 (f p d0)) ->
  evolves d (foldl (fun d0 p => f p d0) d ps).
Proof.
  intros Hf. revert d. induction ps as [| p ps IH]; intros d; simpl.
  - apply evolves_refl.
  - eapply evolves_trans; [apply Hf | apply IH].
Qed.

Lemma evolves_set_load_state (i : nat) (ls : LoadState) (d : Dom) :
  evolves d (set_load_state i ls d).
Proof.
  unfold set_load_state. destruct (scripts d !! i).
  - apply evolves_with_scripts.
  - apply evolves_refl.
Qed.

Lemma evolves_fire_load (i : nat) (w : Window) (d : Dom) :
  evolves d (fire_load i w d).
Proof.
  unfold fire_load. destruct (scripts d !! i) as [s |]; [| apply evolves_refl].
  destruct (load_state s); try apply evolves_refl.
  eapply evolves_trans; [| apply evolves_foldl, evolves_resolve].
  eapply evolves_trans; [| apply evolves_set_load_state].
  exists []. split; [simpl; by rewrite app_nil_r |].
  intros p s0 Hs. simpl. rewrite Hs. apply promise_moves_same.
Qed.

Lemma evolves_fire_error (i : nat) (d : Dom) : evolves d (fire_error i d).
Proof.
  unfold fire_error. destruct (scripts d !! i) as [s |]; [| apply evolves_refl].
  destruct (load_state s); try apply evolves_refl.
  eapply evolves_trans; [apply evolves_set_load_state |].
  apply evolves_foldl. intros p d0. apply evolves_reject.
Qed.

(** A call of [appendScriptOnce] returns a new promise, logs the request
    at the end of the history, possibly followed by the resolution of that
    same promise, and touches no other promise. *)
Lemma appendScriptOnce_effect (src : string) (ready : Window -> bool) (d : Dom) :
  let c := appendScriptOnce src ready d in
  snd c = length (promises d) /\
  (exists tl, history (fst c) = history d ++ Requested src (snd c) :: tl /\
     (promises (fst c) !! snd c = Some PPending \/
      (promises (fst c) !! snd c = Some PResolved /\ Resolved (snd c) ∈ tl))) /\
  evolves d (fst c).
Proof.
  set (d1 := with_promises (promises d ++ [PPending])
               (history d ++ [Requested src (length (promises d))]) d).
  assert (Hd1 : evolves d d1).
  { exists [Requested src (length (promises d))]. split; [done |].
    intros p s Hs. simpl. rewrite (lookup_app_l_Some _ _ _ _ Hs).
    apply promise_moves_same. }
  assert (Hnew : promises d1 !! length (promises d) = Some PPending).
  { simpl. rewrite lookup_app_r by lia. by rewrite Nat.sub_diag. }
  unfold appendScriptOnce. fold d1. simpl.
  destruct (ready (window d)).
  - split; [done |]. split.
    + unfold resolve. rewrite Hnew. simpl.
      exists [Resolved (length (promises d))]. split; [by rewrite <- app_assoc |].
      right. split; [| by apply list_elem_of_singleton].
      apply list_lookup_insert_eq. rewrite length_app. simpl. lia.
    + eapply evolves_trans; [exact Hd1 | apply evolves_resolve].
  - destruct (list_find _ _) as [[i s] |]; simpl.
    + split; [done |]. split; [exists []; split; [done | by left] |].
      eapply evolves_trans; [exact Hd1 | apply evolves_with_scripts].
    + split; [done |]. split; [exists []; split; [done | by left] |].
      eapply evolves_trans; [exact Hd1 | apply evolves_with_scripts].
Qed.

Variable CLIENT_ID : string.

Lemma stack_inv_evolves (d d' : Dom) (t : Stack) :
  stack_inv CLIENT_ID (d, t) -> evolves d d' -> stack_inv CLIENT_ID (d', t).
Proof.
  intros Hinv (hx & Hh & Hp). unfold stack_inv in *. simpl in *.
  destruct t as [p1 | p1 p2 | p1 p2 | e]; [| | | done].
  - destruct Hinv as (h1 & h2 & Hd & [s Hs] & Hres).
    exists h1, (h2 ++ hx). split; [by rewrite Hh, Hd, <- app_assoc |].
    specialize (Hp p1 s Hs). destruct s; simpl in Hp.
    + destruct Hp as [Hp | [[Hp Hin] | [e Hp]]]; rewrite Hp.
      * split; [by eexists | done].
      * split; [by eexists |]. intros _. apply elem_of_app; auto.
      * split; [by eexists | done].
    + rewrite Hp. split; [by eexists |].
      intros _. apply elem_of_app; auto.
    + rewrite Hp. split; [by eexists | done].
  - destruct Hinv as (Hres & h1 & h2 & h3 & h4 & Hd). split.
    + by apply (Hp p1 _ Hres).
    + exists h1, h2, h3, (h4 ++ hx). rewrite Hh, Hd.
      by repeat (rewrite <- app_assoc; simpl).
  - destruct Hinv as (Hres & h1 & h2 & h3 & h4 & Hd). split.
    + by apply (Hp p1 _ Hres).
    + exists h1, h2, h3, (h4 ++ hx). rewrite Hh, Hd.
      by repeat (rewrite <- app_assoc; simpl).
Qed.

Lemma stack_inv_start (d0 : Dom) : stack_inv CLIENT_ID (loadNaverStack CLIENT_ID d0).
Proof.
  unfold loadNaverStack.
  pose proof (appendScriptOnce_effect (mapsUrl CLIENT_ID) ready_maps d0) as Heff.
  destruct (appendScriptOnce (mapsUrl CLIENT_ID) ready_maps d0) as [d p1].
  simpl in Heff. destruct Heff as (_ & (tl & Hh & Hnew) & _).
  unfold stack_inv. simpl. exists (history d0), tl. split; [done |].
  destruct Hnew as [Hp | [Hp Hin]]; rewrite Hp; split; by eauto.
Qed.

Lemma stack_inv_resume (c : Dom * Stack) : stack_inv CLIENT_ID c -> stack_inv CLIENT_ID (resume c).
Proof.
  destruct c as [d t]. intros Hinv. unfold resume.
  destruct t as [p1 | p1 p2 | p1 p2 | e]; [| | done | done].
  - destruct (promises d !! p1) as [[| | e] |] eqn:Hp1; [done | | done | done].
    pose proof (appendScriptOnce_effect clusteringUrl ready_clustering d) as Heff.
    destruct (appendScriptOnce clusteringUrl ready_clustering d) as [d' p2].
    simpl in Heff. destruct Heff as (_ & (tl & Hh & _) & Hev).
    unfold stack_inv in *. simpl in *.
    destruct Hinv as (h1 & h2 & Hd & _ & Hres).
    destruct (list_elem_of_split _ _ (Hres Hp1)) as (a & b & ->).
    split.
    + destruct Hev as (hx & _ & Hmove). by apply (Hmove p1 _ Hp1).
    + exists h1, a, b, tl. rewrite Hh, Hd.
      by repeat (rewrite <- app_assoc; simpl).
  - destruct (promises d !! p2) as [[| | e] |]; done.
Qed.

Lemma stack_inv_step (c : Dom * Stack) (e : Event) :
  stack_inv CLIENT_ID c -> stack_inv CLIENT_ID (step c e).
Proof.
  destruct c as [d t]. intros Hinv. destruct e as [i w | i | src ready |].
  - change (stack_inv CLIENT_ID (fire_load i w d, t)).
    eapply stack_inv_evolves; [exact Hinv | apply evolves_fire_load].
  - change (stack_inv CLIENT_ID (fire_error i d, t)).
    eapply stack_inv_evolves; [exact Hinv | apply evolves_fire_error].
  - change (stack_inv CLIENT_ID (fst (appendScriptOnce src ready d), t)).
    eapply stack_inv_evolves; [exact Hinv |].
    apply (appendScriptOnce_effect src ready d).
  - change (stack_inv CLIENT_ID (resume (d, t))). by apply stack_inv_resume.
Qed.

Lemma stack_inv_run (evs : list Event) (c : Dom * Stack) :
  stack_inv CLIENT_ID c -> stack_inv CLIENT_ID (run evs c).
Proof.
  revert c. induction evs as [| e evs IH]; intros c Hinv; [done |].
  simpl. apply IH. by apply stack_inv_step.
Qed.

(** C4: in every execution of the bootstrap, under any interleaving of
    script events and other callers, once the clustering load has been
    initiated (the execution holds the promises [p1] and [p2] of both
    steps) the promise of the maps load is resolved, it resolved after
    the maps load was requested, and the clustering load was requested
    only after that resolution. *)
Theorem loadNaverStack_in_order (d0 : Dom) (evs : list Event) (p1 p2 : nat) :
  let c := run evs (loadNaverStack CLIENT_ID d0) in
  second_step (snd c) = Some (p1, p2) ->
  promises (fst c) !! p1 = Some PResolved /\
  precedes (Requested (mapsUrl CLIENT_ID) p1) (Resolved p1) (history (fst c)) /\
  precedes (Resolved p1) (Requested clusteringUrl p2) (history (fst c)).
Proof.
  intros c Hsecond.
  pose proof (stack_inv_run evs _ (stack_inv_start d0)) as Hinv.
  fold c in Hinv. unfold stack_inv in Hinv.
  assert (Hboth : promises (fst c) !! p1 = Some PResolved /\
            exists h1 h2 h3 h4,
              history (fst c) = h1 ++ Requested (mapsUrl CLIENT_ID) p1 :: h2 ++
                                Resolved p1 :: h3 ++ Requested clusteringUrl p2 :: h4).
  { destruct (snd c) as [q1 | q1 q2 | q1 q2 | e]; simpl in Hsecond;
      try discriminate; by injection Hsecond as -> ->. }
  destruct Hboth as (Hres & h1 & h2 & h3 & h4 & Hh).
  split; [exact Hres |]. split.
  - by exists h1, h2, (h3 ++ Requested clusteringUrl p2 :: h4).
  - exists (h1 ++ Requested (mapsUrl CLIENT_ID) p1 :: h2), h3, h4.
    rewrite Hh. by rewrite <- app_assoc.
Qed.

End StackOrder.

Lemma loadNaverStack_in_order_witness :
  let c := Scripts.run
             [Scripts.FireLoad 0 {| Scripts.naver_maps := true;
                                    Scripts.MarkerClustering := false |};
              Scripts.Resume]
             (Scripts.loadNaverStack "KEY"
                (Scripts.fresh_document Scripts.photos_href Scripts.nothing_ready [])) in
  Scripts.second_step (snd c) = Some (0, 1) /\
  Scripts.promises (fst c) !! 0 = Some Scripts.PResolved.
Proof.
  intros c. split; [reflexivity |].
  apply (loadNaverStack_in_order "KEY"
           (Scripts.fresh_document Scripts.photos_href Scripts.nothing_ready [])
           [Scripts.FireLoad 0 {| Scripts.naver_maps := true;
                                  Scripts.MarkerClustering := false |};
            Scripts.Resume] 0 1).
  reflexivity.
Defined.

(** ** MapLifecycleController *)

Section LifecycleFacts.
Import Lifecycle.

Lemma grows_refl (w : World) : grows w w.
Proof. repeat split; try done. exists []. by rewrite app_nil_r. Qed.

Lemma grows_trans (w1 w2 w3 : World) : grows w1 w2 -> grows w2 w3 -> grows w1 w3.
Proof.
  intros (Hp & Hl & Hc & Hm & Hn & a1 & Ha1 & Hf1)
         (Hp' & Hl' & Hc' & Hm' & Hn' & a2 & Ha2 & Hf2).
  repeat split; try congruence; try lia.
  exists (a1 ++ a2). split; [by rewrite Ha2, Ha1, app_assoc |].
  apply Forall_app. split.
  - eapply Forall_impl; [exact Hf1 |]. intros l [Hh Ht]. split; [lia | done].
  - eapply Forall_impl; [exact Hf2 |]. intros l [Hh Ht]. split; [lia | done].
Qed.

Lemma grows_addListener (t : Target) (e : EventName) (h : Handler) (w : World) :
  t <> TMap -> grows w (fst (addListener t e h w)).
Proof.
  intros Ht. repeat split; simpl; try done; try lia.
  eexists. split; [done |]. apply Forall_singleton. simpl. split; [lia | done].
Qed.

Lemma grows_create_marker (i : nat) (o : Loader.MapMarkerResponseDto) (w : World) :
  grows w (create_marker i o w).
Proof.
  unfold create_marker.
  eapply grows_trans; [| by apply grows_addListener].
  eapply grows_trans; [| by apply grows_addListener].
  repeat split; simpl; try done. exists []. by rewrite app_nil_r.
Qed.

Lemma grows_create_markers (l : list Loader.MapMarkerResponseDto) (i : nat) (w : World) :
  grows w (create_markers i l w).
Proof.
  revert i w. induction l as [| o l IH]; intros i w; simpl.
  - apply grows_refl.
  - eapply grows_trans; [apply grows_create_marker | apply IH].
Qed.

Lemma grows_clicks (ixs : list nat) (w : World) :
  grows w (foldl (fun w i => fst (addListener (TMarker i) click (MarkerClick i) w)) w ixs).
Proof.
  revert w. induction ixs as [| i ixs IH]; intros w; simpl.
  - apply grows_refl.
  - eapply grows_trans; [| apply IH]. by apply grows_addListener.
Qed.

Lemma addListener_handlers (t t' : Target) (e e' : EventName) (h : Handler) (w : World) :
  handlers_of t e (fst (addListener t' e' h w)) =
    handlers_of t e w ++ (if decide (t' = t /\ e' = e) then [h] else []).
Proof.
  unfold handlers_of, listeners_of, addListener. simpl.
  rewrite filter_app, fmap_app. f_equal.
  rewrite filter_singleton; [| exact []]. simpl. by case_decide.
Qed.

Lemma addListener_markers (t : Target) (e : EventName) (h : Handler) (w : World) :
  markers (fst (addListener t e h w)) = markers w.
Proof. reflexivity. Qed.

(** Creating the markers fills the marker array in order and registers
    no click listener. *)
Lemma create_markers_effect (l : list Loader.MapMarkerResponseDto) (i : nat) (w : World)
    (t : Target) :
  markers (create_markers i l w) = markers w ++ (to_marker <$> l) /\
  handlers_of t click (create_markers i l w) = handlers_of t click w.
Proof.
  revert i w. induction l as [| o l IH]; intros i w; simpl.
  - by rewrite app_nil_r.
  - destruct (IH (S i) (create_marker i o w)) as [Hm Hh].
    rewrite Hm, Hh. split.
    + unfold create_marker. simpl. by rewrite <- app_assoc.
    + unfold create_marker. rewrite !addListener_handlers.
      rewrite !decide_False by (intros [_ ?]; discriminate).
      by rewrite !app_nil_r.
Qed.

Lemma filter_eq_seq (i a n : nat) :
  filter (fun j => j = i) (seq a n) = if decide (a <= i < a + n) then [i] else [].
Proof.
  revert a. induction n as [| n IH]; intros a; simpl.
  - rewrite decide_False by lia. done.
  - rewrite filter_cons, IH. destruct (decide (a = i)) as [-> | Hne].
    + rewrite decide_False by lia. rewrite decide_True by lia. done.
    + destruct (decide (S a <= i < S a + n)).
      * rewrite decide_True by lia. done.
      * rewrite decide_False by lia. done.
Qed.

Lemma clicks_effect (ixs : list nat) (w : World) (i : nat) :
  let w' := foldl (fun w i => fst (addListener (TMarker i) click (MarkerClick i) w)) w ixs in
  markers w' = markers w /\
  handlers_of (TMarker i) click w' =
    handlers_of (TMarker i) click w ++ (MarkerClick <$> filter (fun j => j = i) ixs).
Proof.
  revert w. induction ixs as [| j ixs IH]; intros w.
  - simpl. by rewrite app_nil_r.
  - specialize (IH (fst (addListener (TMarker j) click (MarkerClick j) w))).
    cbv zeta in *. cbn [foldl]. destruct IH as [Hm Hh]. split.
    + by rewrite Hm.
    + rewrite Hh, addListener_handlers, <- app_assoc. f_equal.
      rewrite filter_cons. destruct (decide (j = i)) as [-> | Hne].
      * rewrite decide_True by done. done.
      * rewrite decide_False by (intros [[=] _]; done). done.
Qed.

(** The component once [build] has run: the marker array, the click
    closure of every marker, and the registry laid out as hover
    listeners, then the idle listener, then the click listeners. *)
Lemma build_effect (ml : list Loader.MapMarkerResponseDto) (w : World) :
  let r := build ml w in
  markers (fst r) = to_marker <$> ml /\
  (forall i, handlers_of (TMarker i) click (fst r) =
     handlers_of (TMarker i) click w ++
     (if decide (i < length ml) then [MarkerClick i] else [])) /\
  page (fst r) = page w /\ loader (fst r) = loader w /\
  clusterer (fst r) = Attached /\
  exists hovers clicks,
    listeners (fst r) =
      listeners w ++ hovers ++
      {| handle := idleListener (snd r); target := TMap; event := idle;
         handler := IdleLog |} :: clicks /\
    Forall (fun l => handle l < idleListener (snd r) /\ target l <> TMap) hovers /\
    Forall (fun l => idleListener (snd r) < handle l /\ target l <> TMap) clicks.
Proof.
  unfold build.
  set (w1 := {| page := page w; loader := loader w; map_built := true;
                markers := []; clusters := clusters w; clusterer := clusterer w;
                listeners := listeners w; next_handle := next_handle w |}).
  set (w2 := create_markers 0 ml w1).
  pose proof (grows_create_markers ml 0 w1) as Hg2. fold w2 in Hg2.
  destruct Hg2 as (Hp2 & Hl2 & _ & _ & Hn2 & hovers & Hh2 & Hf2).
  cbn [addListener]. cbv zeta.
  set (w4 := with_listeners _ _ (with_clusterer Attached w2)).
  pose proof (grows_clicks (seq 0 (length (markers w4))) w4) as Hg5.
  fold (register_clicks w4) in Hg5.
  destruct Hg5 as (Hp5 & Hl5 & _ & Hc5 & Hn5 & clicks & Hh5 & Hf5).
  cbn [fst snd idleListener].
  assert (Hm2 : markers w2 = to_marker <$> ml)
    by apply (create_markers_effect ml 0 w1 TMap).
  split; [| split; [| split; [| split; [| split]]]].
  - unfold register_clicks.
    rewrite (proj1 (clicks_effect _ w4 0)). exact Hm2.
  - intros i. unfold register_clicks.
    rewrite (proj2 (clicks_effect _ w4 i)).
    change (markers w4) with (markers w2). rewrite Hm2, length_fmap, filter_eq_seq.
    change (handlers_of (TMarker i) click w4)
      with (handlers_of (TMarker i) click
              (fst (addListener TMap idle IdleLog (with_clusterer Attached w2)))).
    rewrite addListener_handlers.
    rewrite decide_False by (intros [[=] _]). rewrite app_nil_r.
    change (handlers_of (TMarker i) click (with_clusterer Attached w2))
      with (handlers_of (TMarker i) click w2).
    unfold w2. rewrite (proj2 (create_markers_effect ml 0 w1 (TMarker i))).
    f_equal. destruct (decide (i < length ml)).
    + rewrite decide_True by lia. done.
    + rewrite decide_False by lia. done.
  - rewrite Hp5. simpl. exact Hp2.
  - rewrite Hl5. simpl. exact Hl2.
  - rewrite Hc5. done.
  - exists hovers, clicks. split; [| split].
    + rewrite Hh5. simpl. rewrite Hh2. simpl.
      by repeat (rewrite <- app_assoc; simpl).
    + eapply Forall_impl; [exact Hf2 |]. simpl. intros l [Hb Ht].
      split; [lia | done].
    + eapply Forall_impl; [exact Hf5 |]. simpl. intros l [Hb Ht].
      split; [lia | done].
Qed.

End LifecycleFacts.

Section Clicks.
Import Lifecycle.

Lemma handlers_of_listeners (t : Target) (e : EventName) (w1 w2 : World) :
  listeners w1 = listeners w2 -> handlers_of t e w1 = handlers_of t e w2.
Proof. unfold handlers_of, listeners_of. by intros ->. Qed.

Lemma handlers_of_none (t : Target) (e : EventName) (w : World) :
  listeners_of t e w = [] -> handlers_of t e w = [].
Proof. unfold handlers_of. by intros ->. Qed.

Lemma Ok_inj {A} (a b : A) : Exc.Ok a = Exc.Ok b -> a = b.
Proof. by intros [= ->]. Qed.

(** C7: a click on marker [i], made from [o], calls [onViewAssets] with
    the one-element list of [o]'s id; a click on a cluster marker calls it
    with the ids of the cluster's members in member order.  In both cases
    the page afterwards is what [onViewAssets] makes of exactly that
    list. *)
Theorem click_opens_member_ids
    (ml : list Loader.MapMarkerResponseDto) (w0 : World)
    (i : nat) (o : Loader.MapMarkerResponseDto) (w2 : World)
    (w : World) (c : nat) (cl : Cluster) (count : Z) (w' : World) :
  (listeners w0 = [] ->
   ml !! i = Some o ->
   listeners w2 = listeners (fst (build ml w0)) ->
   markers w2 = markers (fst (build ml w0)) ->
   page (dispatch (TMarker i) click w2) =
     Viewer.onViewAssets [Loader.id o] (page w2)) /\
  (clusters w !! c = Some cl ->
   listeners_of (TClusterMarker c) click w = [] ->
   stylingFunction c count w = Exc.Ok w' ->
   page (dispatch (TClusterMarker c) click w') =
     Viewer.onViewAssets (m_id <$> _clusterMember cl) (page w')).
Proof.
  split.
  - intros Hempty Hi Hls Hms.
    destruct (build_effect ml w0) as (Hm & Hh & _).
    unfold dispatch. fold (handlers_of (TMarker i) click w2).
    rewrite (handlers_of_listeners _ _ _ _ Hls), Hh.
    rewrite (handlers_of_none _ _ w0) by (unfold listeners_of; by rewrite Hempty).
    rewrite decide_True by (by eapply lookup_lt_Some).
    simpl. rewrite Hms, Hm, list_lookup_fmap, Hi. done.
  - intros Hc Hfresh Hstyle. unfold stylingFunction in Hstyle. rewrite Hc in Hstyle.
    assert (Hgo : forall w1 : World,
               listeners w1 = listeners w ->
               (exists cl1, clusters w1 !! c = Some cl1 /\
                            _clusterMember cl1 = _clusterMember cl) ->
               let w3 := fst (addListener (TClusterMarker c) mouseout (ClusterHoverLeave c)
                         (fst (addListener (TClusterMarker c) mouseover (ClusterHoverEnter c)
                         (fst (addListener (TClusterMarker c) click (ClusterClick c) w1))))) in
               page (dispatch (TClusterMarker c) click w3) =
                 Viewer.onViewAssets (m_id <$> _clusterMember cl) (page w3)).
    { intros w1 Hls (cl1 & Hcl1 & Hsame) w3.
      unfold dispatch. fold (handlers_of (TClusterMarker c) click w3).
      unfold w3. rewrite !addListener_handlers.
      rewrite (handlers_of_listeners _ _ _ _ Hls), (handlers_of_none _ _ w Hfresh).
      rewrite decide_True by done.
      rewrite !decide_False by (intros [_ [=]]).
      simpl. rewrite Hcl1. simpl. by rewrite Hsame. }
    destruct (getElement cl) as [el |].
    + destruct (_clusterMember cl) as [| m ms] eqn:Hmem; [discriminate |].
      cbn [Exc.bind] in Hstyle. apply Ok_inj in Hstyle. subst w'.
      apply Hgo; [done |].
      eexists. split.
      * simpl. apply list_lookup_insert_eq. by eapply lookup_lt_Some.
      * done.
    + cbn [Exc.bind] in Hstyle. apply Ok_inj in Hstyle. subst w'.
      apply Hgo; [done |]. by exists cl.
Qed.

End Clicks.

Lemma click_opens_member_ids_witness :
  Viewer.viewingAssets
    (Lifecycle.page
       (Lifecycle.dispatch (Lifecycle.TMarker 0) Lifecycle.click
          (fst (Lifecycle.build Lifecycle.one_marker (Lifecycle.initial Filter.last_week))))) = ["m1"] /\
  Viewer.viewingAssets
    (Lifecycle.page
       (Lifecycle.dispatch (Lifecycle.TClusterMarker 0) Lifecycle.click
          Lifecycle.three_members_styled)) = ["m1"; "m2"; "m3"].
Proof.
  destruct (click_opens_member_ids Lifecycle.one_marker (Lifecycle.initial Filter.last_week) 0
              {| Loader.id := "m1"; Loader.lat := Lifecycle.seoul; Loader.lon := Lifecycle.han |}
              (fst (Lifecycle.build Lifecycle.one_marker (Lifecycle.initial Filter.last_week)))
              Lifecycle.three_members 0
              {| Lifecycle._clusterMember :=
                   [{| Lifecycle.m_id := "m1"; Lifecycle.m_lat := Lifecycle.seoul; Lifecycle.m_lon := Lifecycle.han |};
                    {| Lifecycle.m_id := "m2"; Lifecycle.m_lat := Lifecycle.seoul; Lifecycle.m_lon := Lifecycle.han |};
                    {| Lifecycle.m_id := "m3"; Lifecycle.m_lat := Lifecycle.seoul; Lifecycle.m_lon := Lifecycle.han |}];
                 Lifecycle.getElement := Some {| Lifecycle.badge := Lifecycle.Markup "03344";
                                                 Lifecycle.img_src := "" |} |}
              3%Z Lifecycle.three_members_styled) as [Hmarker Hcluster].
  split.
  - rewrite Hmarker; reflexivity.
  - rewrite Hcluster; reflexivity.
Defined.

Section Teardown.
Import Filter Lifecycle.
Context `{Clock}.

Lemma filter_keep {A} (P : A -> Prop) `{!forall x, Decision (P x)} (l : list A) :
  Forall P l -> filter P l = l.
Proof.
  induction 1 as [| x l Hx _ IH]; [done |].
  by rewrite filter_cons_True, IH.
Qed.

Lemma filter_drop {A} (P : A -> Prop) `{!forall x, Decision (P x)} (l : list A) :
  Forall (fun x => ~ P x) l -> filter P l = [].
Proof.
  induction 1 as [| x l Hx _ IH]; [done |].
  by rewrite filter_cons_False.
Qed.

(** The loader of a mounted component is in a state the loader can reach. *)
Lemma onMount_loader (s : MapSettings) (now : Instant)
    (ml : list Loader.MapMarkerResponseDto) :
  loader (fst (onMount_callback (Exc.Ok tt) now (Exc.Ok ml) (initial s))) =
    Loader.run [Loader.Load now; Loader.Respond 0 ml] (Loader.initial s).
Proof.
  unfold onMount_callback. simpl loader at 2.
  rewrite loadMapMarkers_eq.
  match goal with
  | |- context [build ml ?w] =>
      destruct (build_effect ml w) as (_ & _ & _ & Hl & _);
      destruct (build ml w) as [wb cb]
  end.
  simpl in Hl |- *. rewrite Hl. by rewrite loadMapMarkers_eq.
Qed.

(** The cleanup closure, were it called: after a startup that ran to its
    end it removes the idle listener of the map and no other listener
    (every hover and click listener of every marker stays registered),
    detaches the clusterer, and aborts the current controller, which
    leaves no fetch in flight whatever the loader did since the mount.  A
    startup that stops at the script load or at the fetch makes no
    closure. *)
Lemma teardown_releases (s : MapSettings) (now : Instant)
    (ml : list Loader.MapMarkerResponseDto) (evs : list Loader.Event)
    (e : Exc.JSError) (fetched : Exc.t (list Loader.MapMarkerResponseDto))
    (w0 : World) :
  let r := onMount_callback (Exc.Ok tt) now (Exc.Ok ml) (initial s) in
  (exists c, snd r = Some c /\
     let w := fst r in
     let w' := teardown c w in
     listeners w' = filter (fun l => target l <> TMap) (listeners w) /\
     listeners_of TMap idle w' = [] /\
     (forall i, i < length ml ->
        handlers_of (TMarker i) click w' = [MarkerClick i]) /\
     clusterer w' = Detached /\
     Loader.in_flight
       (loader (teardown c (with_loader (Loader.run evs (loader w)) w))) = []) /\
  onMount_callback (Exc.Throw e) now fetched w0 = (w0, None) /\
  snd (onMount_callback (Exc.Ok tt) now (Exc.Throw e) w0) = None.
Proof.
  intros r. split; [| split].
  - pose proof (onMount_loader s now ml) as Hloader. fold r in Hloader.
    subst r. unfold onMount_callback in *.
    destruct (Loader.loadMapMarkers now (loader (initial s))) as [l r0].
    match goal with
    | |- context [build ml ?w] =>
        destruct (build_effect ml w) as (_ & Hh & _ & _ & Hc & hovers & clicks & Hls & Hfh & Hfc);
        destruct (build ml w) as [wb cb]
    end.
    simpl in Hh, Hc, Hls, Hfh, Hfc. cbn [fst] in Hloader.
    exists cb. split; [done |]. cbn [fst snd]. cbv zeta.
    assert (Hkept : listeners (teardown cb wb) = hovers ++ clicks).
    { simpl. rewrite Hls, filter_app, filter_cons_False by (simpl; intros Hne; by apply Hne).
      rewrite !filter_keep; [done | |].
      - eapply Forall_impl; [exact Hfc |]. simpl. intros x [Hx _]. lia.
      - eapply Forall_impl; [exact Hfh |]. simpl. intros x [Hx _]. lia. }
    assert (Hmarkers : filter (fun l => target l <> TMap) (listeners wb) = hovers ++ clicks).
    { rewrite Hls, filter_app, filter_cons_False by (simpl; intros Hne; by apply Hne).
      rewrite !filter_keep; [done | |].
      - eapply Forall_impl; [exact Hfc |]. simpl. by intros x [_ Hx].
      - eapply Forall_impl; [exact Hfh |]. simpl. by intros x [_ Hx]. }
    split; [by rewrite Hkept, Hmarkers |].
    split; [| split; [| split]].
    + unfold listeners_of. rewrite Hkept. apply filter_drop, Forall_app. split.
      * eapply Forall_impl; [exact Hfh |]. simpl. intros x [_ Hx] [Ht _]. done.
      * eapply Forall_impl; [exact Hfc |]. simpl. intros x [_ Hx] [Ht _]. done.
    + intros i Hi. unfold handlers_of, listeners_of.
      rewrite Hkept, <- Hmarkers, list_filter_filter.
      rewrite (list_filter_iff _ (fun l => target l = TMarker i /\ event l = click)).
      * fold (listeners_of (TMarker i) click wb). fold (handlers_of (TMarker i) click wb).
        rewrite Hh. by rewrite decide_True.
      * intros x. split; [by intros [? _] |]. intros [Ht He].
        split; [done |]. by rewrite Ht.
    + simpl. by rewrite Hc.
    + simpl. rewrite Hloader.
      unfold Loader.in_flight. apply filter_none, Forall_lookup. intros i rq.
      apply abort_current_none_pending.
      do 2 apply only_newest_pending_run. apply only_newest_pending_initial.
  - reflexivity.
  - unfold onMount_callback. by destruct (Loader.loadMapMarkers now (loader w0)).
Qed.

End Teardown.

Lemma teardown_releases_one_marker :
  let r := @Lifecycle.onMount_callback Filter.toy_clock (Exc.Ok tt) 0%Z (Exc.Ok Lifecycle.one_marker)
             (Lifecycle.initial Filter.last_week) in
  exists c, snd r = Some c /\
    Lifecycle.handlers_of (Lifecycle.TMarker 0) Lifecycle.click (Lifecycle.teardown c (fst r)) =
      [Lifecycle.MarkerClick 0].
Proof.
  intros r.
  destruct (@teardown_releases Filter.toy_clock Filter.last_week 0%Z Lifecycle.one_marker []
              Exc.RangeError (Exc.Ok []) (Lifecycle.initial Filter.last_week))
    as [(c & Hc & _ & _ & Hclick & _) _].
  exists c. split; [exact Hc |]. apply Hclick. simpl. lia.
Defined.

(** With one marker on the map, the three listeners that startup
    registered on the marker are still registered after the closure has
    been called. *)
Lemma teardown_keeps_marker_listeners :
  let r := @Lifecycle.onMount_callback Filter.toy_clock (Exc.Ok tt) 0%Z (Exc.Ok Lifecycle.one_marker)
             (Lifecycle.initial Filter.last_week) in
  match snd r with
  | Some c =>
      Lifecycle.handler <$> Lifecycle.listeners (Lifecycle.teardown c (fst r)) =
        [Lifecycle.MarkerHoverEnter 0; Lifecycle.MarkerHoverLeave 0;
         Lifecycle.MarkerClick 0] /\
      Lifecycle.listeners (Lifecycle.teardown c (fst r)) <>
        Lifecycle.listeners (Lifecycle.initial Filter.last_week)
  | None => False
  end.
Proof. vm_compute. split; [reflexivity | discriminate]. Qed.

(** * Further properties of the page *)

(** ** Stepping through a session *)

Section NavigationFacts.
Import Viewer Navigation.

Lemma navigatePrevious_at_start (q : Page) :
  (viewingAssetCursor q <= 0)%Z -> navigatePrevious q = (q, false).
Proof.
  intros Hle. unfold navigatePrevious.
  destruct (Z.gtb_spec (viewingAssetCursor q) 0); [lia | reflexivity].
Qed.

Lemma navigatePrevious_after_start (q : Page) :
  (0 < viewingAssetCursor q)%Z ->
  let c := (viewingAssetCursor q - 1)%Z in
  navigatePrevious q =
    ({| viewingAssets := viewingAssets q;
        viewingAssetCursor := c;
        viewingAsset := JS.index (viewingAssets q) c;
        isViewing := true;
        calls := calls q ++ [SetAssetId (JS.index (viewingAssets q) c);
                             Navigate (JS.index (viewingAssets q) c)] |}, true).
Proof.
  intros Hlt c. unfold navigatePrevious.
  destruct (Z.gtb_spec (viewingAssetCursor q) 0); [| lia].
  unfold navigate, setAssetId, set_session; simpl.
  by rewrite <- app_assoc.
Qed.

Lemma navigatePrevious_succeeds_iff (q : Page) :
  snd (navigatePrevious q) = true <-> (0 < viewingAssetCursor q)%Z.
Proof.
  destruct (Z.lt_ge_cases 0 (viewingAssetCursor q)) as [Hlt | Hge].
  - rewrite navigatePrevious_after_start by done. simpl. tauto.
  - rewrite navigatePrevious_at_start by lia. simpl. split; [done | lia].
Qed.

(** X1: [previous()] succeeds exactly when the cursor is above 0; at 0 (or
    below) it fails and changes nothing; when it succeeds the cursor moves
    down by one, the ids stay, and the asset under the new cursor is handed
    to [setAssetId] and then to [navigate]. *)
Theorem navigatePrevious_boundary (q : Page) :
  (snd (navigatePrevious q) = true <-> (0 < viewingAssetCursor q)%Z) /\
  ((viewingAssetCursor q <= 0)%Z -> navigatePrevious q = (q, false)) /\
  ((0 < viewingAssetCursor q)%Z ->
     let a := JS.index (viewingAssets q) (viewingAssetCursor q - 1) in
     session (fst (navigatePrevious q)) =
       (viewingAssets q, (viewingAssetCursor q - 1)%Z) /\
     calls (fst (navigatePrevious q)) = calls q ++ [SetAssetId a; Navigate a]).
Proof.
  split; [| split].
  - apply navigatePrevious_succeeds_iff.
  - apply navigatePrevious_at_start.
  - intros Hlt a. by rewrite navigatePrevious_after_start.
Qed.

Lemma navigatePrevious_boundary_witness :
  navigatePrevious (onViewAssets abc initial) = (onViewAssets abc initial, false) /\
  session (fst (navigatePrevious two_ids_at_end)) = (["x"; "y"], 0%Z).
Proof.
  split.
  - apply (navigatePrevious_boundary (onViewAssets abc initial)). simpl. lia.
  - apply (navigatePrevious_boundary two_ids_at_end). simpl. lia.
Defined.

(** X2: A successful [next()] is undone by [previous()], and a successful
    [previous()] inside the list is undone by [next()]: ids and cursor are
    back where they were and the asset under that cursor is displayed. *)
Theorem next_previous_round_trip (q : Page) :
  ((0 <= viewingAssetCursor q < JS.length (viewingAssets q) - 1)%Z ->
     let r := navigatePrevious (fst (navigateNext q)) in
     snd r = true /\ session (fst r) = session q /\
     viewingAsset (fst r) = JS.index (viewingAssets q) (viewingAssetCursor q)) /\
  ((0 < viewingAssetCursor q < JS.length (viewingAssets q))%Z ->
     let r := navigateNext (fst (navigatePrevious q)) in
     snd r = true /\ session (fst r) = session q /\
     viewingAsset (fst r) = JS.index (viewingAssets q) (viewingAssetCursor q)).
Proof.
  split.
  - intros [Hlo Hhi] r. subst r.
    rewrite navigateNext_before_end by done. cbn [fst].
    rewrite navigatePrevious_after_start by (simpl; lia). simpl.
    unfold session. replace (viewingAssetCursor q + 1 - 1)%Z with (viewingAssetCursor q) by lia.
    done.
  - intros [Hlo Hhi] r. subst r.
    rewrite navigatePrevious_after_start by done. cbn [fst].
    rewrite navigateNext_before_end by (simpl; lia). simpl.
    unfold session. replace (viewingAssetCursor q - 1 + 1)%Z with (viewingAssetCursor q) by lia.
    done.
Qed.

Lemma next_previous_round_trip_witness :
  session (fst (navigatePrevious (fst (navigateNext two_ids_at_start)))) =
    session two_ids_at_start /\
  session (fst (navigateNext (fst (navigatePrevious two_ids_at_end)))) =
    session two_ids_at_end.
Proof.
  split.
  - apply (proj1 (next_previous_round_trip two_ids_at_start)).
    unfold JS.length. simpl. lia.
  - apply (proj2 (next_previous_round_trip two_ids_at_end)).
    unfold JS.length. simpl. lia.
Defined.

End NavigationFacts.

Section SessionFacts.
Import Viewer Navigation.

Lemma shows_cursor_move (p : Page) (m : Move) :
  shows_cursor p ->
  shows_cursor (move p m) /\ viewingAssets (move p m) = viewingAssets p.
Proof.
  intros ([Hne [Hlo Hhi]] & Hshown & Hview). destruct m; simpl.
  - destruct (Z.lt_ge_cases (viewingAssetCursor p) (JS.length (viewingAssets p) - 1))
      as [Hlt | Hge].
    + rewrite navigateNext_before_end by done. simpl.
      split; [| done]. split; [| done]. split; [done | simpl; lia].
    + rewrite navigateNext_at_end by lia. simpl.
      split; [| done]. by repeat split.
  - destruct (Z.lt_ge_cases 0 (viewingAssetCursor p)) as [Hlt | Hge].
    + rewrite navigatePrevious_after_start by done. simpl.
      split; [| done]. split; [| done]. split; [done | simpl; lia].
    + rewrite navigatePrevious_at_start by lia. simpl.
      split; [| done]. by repeat split.
Qed.

Lemma shows_cursor_walk (ms : list Move) (p : Page) :
  shows_cursor p ->
  shows_cursor (walk ms p) /\ viewingAssets (walk ms p) = viewingAssets p.
Proof.
  revert p. induction ms as [| m ms IH]; intros p Hp; [done |].
  destruct (shows_cursor_move p m Hp) as [Hm Hids].
  destruct (IH (move p m) Hm) as [Hw Hids'].
  split; [exact Hw |]. simpl in *. congruence.
Qed.

(** X3: After [open(ids)] with at least one id, however the user presses next
    and previous, the ids are the ones opened, the cursor stays inside
    them, and the asset on display is the one under the cursor (never
    [undefined]). *)
Theorem walk_keeps_cursor_in_range (ids : list string) (ms : list Move) (p : Page) :
  ids <> [] ->
  let q := walk ms (onViewAssets ids p) in
  viewingAssets q = ids /\
  (0 <= viewingAssetCursor q < JS.length ids)%Z /\
  viewingAsset q = JS.index ids (viewingAssetCursor q) /\
  is_Some (viewingAsset q) /\
  isViewing q = true.
Proof.
  intros Hne q.
  assert (Hopen : shows_cursor (onViewAssets ids p)).
  { split; [| done]. split; [done |]. simpl. unfold JS.length.
    destruct ids; [done | simpl; lia]. }
  destruct (shows_cursor_walk ms _ Hopen) as [([_ Hrange] & Hshown & Hview) Hids].
  fold q in Hrange, Hshown, Hview, Hids. simpl in Hids.
  rewrite Hids in Hrange, Hshown.
  split; [done |]. split; [done |]. split; [done |]. split; [| done].
  rewrite Hshown. by apply index_in_range.
Qed.

Lemma walk_keeps_cursor_in_range_witness :
  viewingAsset (walk [Next; Next; Next; Previous; Next; Previous; Previous; Previous]
                  (onViewAssets abc initial)) = Some "a".
Proof.
  destruct (walk_keeps_cursor_in_range abc
              [Next; Next; Next; Previous; Next; Previous; Previous; Previous] initial)
    as (_ & _ & Hshown & _); [discriminate |].
  rewrite Hshown. reflexivity.
Defined.

(** X4: Closing the viewer hides it and resets the location with
    [navigate(assetId: null)], in that order, and leaves ids and cursor as
    they were: a later [next()] steps on from the old cursor and shows the
    viewer again, and a later [open] replaces the session whole. *)
Theorem onClose_keeps_session (ids : list string) (p : Page) :
  let q := onClose p in
  session q = session p /\
  isViewing q = false /\
  calls q = calls p ++ [ShowAssetViewer false; Navigate None] /\
  snd (navigateNext q) = snd (navigateNext p) /\
  session (fst (navigateNext q)) = session (fst (navigateNext p)) /\
  isViewing (fst (navigateNext q)) = snd (navigateNext p) /\
  session (onViewAssets ids q) = (ids, 0%Z).
Proof.
  intros q. split; [done |]. split; [done |].
  split; [unfold q, onClose, navigate; simpl; by rewrite <- app_assoc |].
  unfold navigateNext. subst q. simpl.
  by destruct (_ <? _)%Z.
Qed.

(** X5: In an open session the navigation controls are shown exactly when one
    of them can move: with a single id both [next()] and [previous()]
    fail, with more ids at least one of them succeeds. *)
Theorem showNavigation_iff_can_move (p : Page) :
  is_open p ->
  (showNavigation p = true <->
   snd (navigateNext p) = true \/ snd (navigatePrevious p) = true).
Proof.
  intros [_ [Hlo Hhi]]. unfold showNavigation.
  rewrite navigateNext_succeeds_iff, navigatePrevious_succeeds_iff.
  destruct (Z.gtb_spec (JS.length (viewingAssets p)) 1); split; intros; try lia; done.
Qed.

Lemma showNavigation_iff_can_move_witness :
  showNavigation (onViewAssets ["only"] initial) = false /\
  ~ (snd (navigateNext (onViewAssets ["only"] initial)) = true \/
     snd (navigatePrevious (onViewAssets ["only"] initial)) = true).
Proof.
  split; [reflexivity |]. intros Hmove.
  apply (showNavigation_iff_can_move (onViewAssets ["only"] initial)) in Hmove.
  - discriminate.
  - split; [discriminate |]. unfold JS.length. simpl. lia.
Defined.

End SessionFacts.

(** ** Hover emphasis *)

Section PresenterFacts.
Import Presenter.

Lemma hovers_null (k : Kind) (hs : list Hover) : hovers k hs None = None.
Proof. induction hs as [| [|] hs IH]; simpl; done. Qed.

(** What a run of hover events leaves of the two properties that only
    [mouseover] writes. *)
Lemma hovers_transition (k : Kind) (hs : list Hover) (s : Style) :
  exists s', hovers k hs (Some s) = Some s' /\
    transition s' = (if entered hs then "transform 120ms ease" else transition s) /\
    transformOrigin s' = (if entered hs then "center" else transformOrigin s).
Proof.
  revert s. induction hs as [| h hs IH]; intros s; [by exists s |].
  destruct h; simpl.
  - destruct (IH {| transition := "transform 120ms ease"; transformOrigin := "center";
                    transform := "translateZ(0) scale(1.08)";
                    zIndex := match k with OfMarker => "900" | OfCluster => "1" end |})
      as (s' & Hs' & Ht & Ho).
    exists s'. split; [exact Hs' |]. simpl in Ht, Ho.
    split; [by destruct (entered hs) | by destruct (entered hs)].
  - destruct (IH {| transition := transition s; transformOrigin := transformOrigin s;
                    transform := "scale(1)"; zIndex := "" |})
      as (s' & Hs' & Ht & Ho).
    exists s'. by split.
Qed.

(** X6: Hover events do not pile up.  After any run of events that ends with
    the pointer entering, the element is styled as by a single
    [mouseover]; after a run that ends with the pointer leaving, transform
    and stacking order are back to ['scale(1)'] and [''], while the
    transition and the transform origin stay as the first [mouseover] set
    them (they are what the element had only if the pointer never
    entered).  Without an element the closures do nothing. *)
Theorem hovers_last_event_wins (k : Kind) (hs : list Hover) (s : Style) :
  hovers k (hs ++ [Enter]) (Some s) = mouseover k (Some s) /\
  hovers k (hs ++ [Leave]) (Some s) =
    Some {| transition := if entered hs then "transform 120ms ease" else transition s;
            transformOrigin := if entered hs then "center" else transformOrigin s;
            transform := "scale(1)";
            zIndex := "" |} /\
  hovers k (hs ++ [Enter; Leave]) (Some s) = mouseout (mouseover k (Some s)) /\
  forall h, hovers k (hs ++ [h]) None = None.
Proof.
  split; [| split; [| split]]; [| | | intros h; apply hovers_null].
  all: unfold hovers; rewrite foldl_app; fold (hovers k hs (Some s)).
  all: destruct (hovers_transition k hs s) as (s' & -> & Ht & Ho).
  all: simpl; rewrite ?Ht, ?Ho; done.
Qed.

End PresenterFacts.

(** ** More on the filter derivation *)

Section DerivationFacts.
Import Filter Loader.
Context `{Clock}.

(** [s ? new Date(s).toISOString() : undefined] either throws, on a
    non-empty string that is not a date, or gives the ISO string of the
    date (nothing for the empty string). *)
Lemma iso_or_undefined_cases (x : string) :
  (JS.truthy x = true /\ Date_parse x = None /\
   iso_or_undefined x = Exc.Throw Exc.RangeError) \/
  (~ (JS.truthy x = true /\ Date_parse x = None) /\
   iso_or_undefined x =
     Exc.Ok (if JS.truthy x then toISOString <$> Date_parse x else None)).
Proof.
  unfold iso_or_undefined, Date_toISOString.
  destruct (JS.truthy x); [| right; split; [by intros [? _] | done]].
  destruct (Date_parse x) as [d |]; [right | left]; simpl.
  - split; [by intros [_ ?] | done].
  - done.
Qed.

(** The absolute branch when every stored date parses. *)
Lemma getFileCreatedDates_absolute (now : Instant) (s : MapSettings) :
  JS.truthy (relativeDate s) = false ->
  ~ absolute_parse_fails s ->
  getFileCreatedDates now s =
    (s, {| fileCreatedAfter :=
             JS.of_option
               (if JS.truthy (dateAfter s) then toISOString <$> Date_parse (dateAfter s)
                else None);
           fileCreatedBefore :=
             if JS.truthy (dateBefore s) then toISOString <$> Date_parse (dateBefore s)
             else None |}).
Proof.
  intros Hrel Hok. unfold getFileCreatedDates. rewrite Hrel.
  destruct (iso_or_undefined_cases (dateAfter s)) as [(Ht & Hp & _) | [_ ->]].
  { exfalso. apply Hok. split; [done |]. by left. }
  destruct (iso_or_undefined_cases (dateBefore s)) as [(Ht & Hp & _) | [_ ->]].
  { exfalso. apply Hok. split; [done |]. by right. }
  done.
Qed.

(** X7: A relative duration that is set but not a valid ISO duration switches
    the date filter off altogether: no bound is derived, the stored
    absolute dates are neither used nor cleared, and the fetch goes out
    without date bounds. *)
Theorem getFileCreatedDates_invalid_relative (now : Instant) (st : State) :
  JS.truthy (relativeDate (settings st)) = true ->
  Duration_fromISO (relativeDate (settings st)) = None ->
  getFileCreatedDates now (settings st) = (settings st, empty_dates) /\
  settings (fst (loadMapMarkers now st)) = settings st /\
  exists rq,
    requests (fst (loadMapMarkers now st)) !! snd (loadMapMarkers now st) = Some rq /\
    q_fileCreatedAfter (query rq) = None /\
    q_fileCreatedBefore (query rq) = None.
Proof.
  intros Hrel Hdur.
  assert (Hg : getFileCreatedDates now (settings st) = (settings st, empty_dates)).
  { unfold getFileCreatedDates. by rewrite Hrel, Hdur. }
  split; [exact Hg |]. rewrite loadMapMarkers_eq. simpl. rewrite Hg. simpl.
  split; [done |]. exists (issued now st). split.
  - rewrite lookup_app_r by lia. by rewrite Nat.sub_diag.
  - unfold issued. simpl. by rewrite Hg.
Qed.

(** X8: With no relative duration and stored dates that parse, each bound is
    the ISO string of its stored date, an empty stored date gives no bound,
    and the store is left alone. *)
Theorem getFileCreatedDates_absolute_bounds (now : Instant) (s : MapSettings)
    (a b : Instant) :
  JS.truthy (relativeDate s) = false ->
  (JS.truthy (dateAfter s) = true -> Date_parse (dateAfter s) = Some a) ->
  (JS.truthy (dateBefore s) = true -> Date_parse (dateBefore s) = Some b) ->
  getFileCreatedDates now s =
    (s, {| fileCreatedAfter :=
             if JS.truthy (dateAfter s) then JS.Str (toISOString a) else JS.Undefined;
           fileCreatedBefore :=
             if JS.truthy (dateBefore s) then Some (toISOString b) else None |}).
Proof.
  intros Hrel Ha Hb. rewrite getFileCreatedDates_absolute; [| done |].
  - f_equal. f_equal.
    + destruct (JS.truthy (dateAfter s)); [by rewrite Ha | done].
    + destruct (JS.truthy (dateBefore s)); [by rewrite Hb | done].
  - intros [_ [[Ht Hp] | [Ht Hp]]].
    + rewrite (Ha Ht) in Hp. discriminate.
    + rewrite (Hb Ht) in Hp. discriminate.
Qed.

Lemma clear_dates_changes (s : MapSettings) :
  absolute_parse_fails s -> clear_dates s <> s.
Proof.
  intros [_ [[Ht _] | [Ht _]]] Heq.
  - apply (f_equal dateAfter) in Heq. simpl in Heq. rewrite <- Heq in Ht. discriminate.
  - apply (f_equal dateBefore) in Heq. simpl in Heq. rewrite <- Heq in Ht. discriminate.
Qed.

(** X9: The derivation writes to the settings store exactly when a stored
    absolute date fails to parse, and then only clears the two dates;
    deriving again, at any later time, writes nothing more. *)
Theorem getFileCreatedDates_store (now later : Instant) (s : MapSettings) :
  (fst (getFileCreatedDates now s) <> s <-> absolute_parse_fails s) /\
  (fst (getFileCreatedDates now s) = s \/
   fst (getFileCreatedDates now s) = clear_dates s) /\
  fst (getFileCreatedDates later (fst (getFileCreatedDates now s))) =
    fst (getFileCreatedDates now s).
Proof.
  destruct (JS.truthy (relativeDate s)) eqn:Hrel.
  { assert (Hg : forall t, fst (getFileCreatedDates t s) = s).
    { intros t. unfold getFileCreatedDates. by rewrite Hrel. }
    rewrite !Hg. split; [| by split; [left |]].
    split; [done |]. intros [Hfalse _]. congruence. }
  assert (Hdec : absolute_parse_fails s \/ ~ absolute_parse_fails s).
  { unfold absolute_parse_fails.
    destruct (JS.truthy (dateAfter s)), (Date_parse (dateAfter s)),
             (JS.truthy (dateBefore s)), (Date_parse (dateBefore s));
      first [ left; split; [done |]; (by left) || (by right)
            | right; intros [_ [[? ?] | [? ?]]]; done ]. }
  destruct Hdec as [Hfail | Hok].
  - rewrite (getFileCreatedDates_catch now s Hfail). simpl.
    split; [| split; [by right |]].
    + split; [done |]. intros _. by apply clear_dates_changes.
    + rewrite getFileCreatedDates_absolute; [done | done |].
      intros [_ [[Ht _] | [Ht _]]]; discriminate.
  - rewrite (getFileCreatedDates_absolute now s Hrel Hok). simpl.
    split; [| split; [by left |]].
    + split; [done |]. intros Hfail. by destruct (Hok Hfail).
    + by rewrite (getFileCreatedDates_absolute later s Hrel Hok).
Qed.

End DerivationFacts.

Lemma getFileCreatedDates_invalid_relative_witness :
  @Filter.getFileCreatedDates Filter.toy_clock 9%Z
    (Filter.with_absolute "0" "1000"
       {| Filter.includeArchived := false; Filter.onlyFavorites := false;
          Filter.withPartners := false; Filter.withSharedAlbums := false;
          Filter.relativeDate := "a week"; Filter.dateAfter := "";
          Filter.dateBefore := "" |}) =
    (Filter.with_absolute "0" "1000"
       {| Filter.includeArchived := false; Filter.onlyFavorites := false;
          Filter.withPartners := false; Filter.withSharedAlbums := false;
          Filter.relativeDate := "a week"; Filter.dateAfter := "";
          Filter.dateBefore := "" |}, Filter.empty_dates).
Proof.
  apply (@getFileCreatedDates_invalid_relative Filter.toy_clock 9%Z
           (Loader.initial
              (Filter.with_absolute "0" "1000"
                 {| Filter.includeArchived := false; Filter.onlyFavorites := false;
                    Filter.withPartners := false; Filter.withSharedAlbums := false;
                    Filter.relativeDate := "a week"; Filter.dateAfter := "";
                    Filter.dateBefore := "" |}))); reflexivity.
Defined.

Lemma getFileCreatedDates_absolute_bounds_witness :
  @Filter.getFileCreatedDates Filter.toy_clock 9%Z
    (Filter.with_absolute "" "1000" Filter.bad_after) =
    (Filter.with_absolute "" "1000" Filter.bad_after,
     {| Filter.fileCreatedAfter := JS.Undefined;
        Filter.fileCreatedBefore := Some "1000Z" |}).
Proof.
  apply (@getFileCreatedDates_absolute_bounds Filter.toy_clock 9%Z
           (Filter.with_absolute "" "1000" Filter.bad_after) 0%Z 1000%Z).
  - reflexivity.
  - discriminate.
  - reflexivity.
Defined.

Lemma getFileCreatedDates_store_witness :
  fst (@Filter.getFileCreatedDates Filter.toy_clock 9%Z Filter.bad_after) <>
    Filter.bad_after.
Proof.
  apply (@getFileCreatedDates_store Filter.toy_clock 9%Z 10%Z Filter.bad_after).
  split; [reflexivity |]. left. split; reflexivity.
Defined.

(** ** More on the marker loader *)

Section FetchFacts.
Import Filter Loader Fetches.
Context `{Clock}.

Lemma abort_request_settled (c : nat) (r : Request) :
  is_pending r = false -> abort_request c r = r.
Proof. intros Hp. unfold abort_request. by rewrite Hp. Qed.

Lemma abort_current_settled (st : State) (i : nat) (r : Request) :
  requests st !! i = Some r -> is_pending r = false ->
  requests (abort_current st) !! i = Some r.
Proof.
  intros Hi Hp. unfold abort_current. destruct (abortController st); [| done].
  simpl. rewrite list_lookup_fmap, Hi. simpl. by rewrite abort_request_settled.
Qed.

Lemma settle_settled (k : nat) (s : Status) (st : State) (i : nat) (r : Request) :
  requests st !! i = Some r -> is_pending r = false ->
  requests (settle k s st) !! i = Some r.
Proof.
  intros Hi Hp. unfold settle.
  destruct (requests st !! k) as [rq |] eqn:Hk; [| done].
  destruct (is_pending rq) eqn:Hq; [| done]. simpl.
  rewrite list_lookup_insert_ne; [done |]. intros ->. congruence.
Qed.

Lemma step_settled (e : Event) (st : State) (i : nat) (r : Request) :
  requests st !! i = Some r -> is_pending r = false ->
  requests (step st e) !! i = Some r.
Proof.
  intros Hi Hp. destruct e; simpl.
  - rewrite loadMapMarkers_eq. simpl. apply lookup_app_l_Some.
    by apply abort_current_settled.
  - by apply settle_settled.
  - by apply settle_settled.
  - by apply abort_current_settled.
  - done.
Qed.

(** X10: A fetch that has settled, with markers or with an error, keeps its
    outcome through every later load, answer, failure, cleanup abort and filter
    edit. *)
Theorem settled_fetch_is_final (evs : list Event) (st : State) (i : nat) (r : Request) :
  requests st !! i = Some r -> is_pending r = false ->
  requests (run evs st) !! i = Some r.
Proof.
  revert st. induction evs as [| e evs IH]; intros st Hi Hp; [done |].
  simpl. apply IH; [| done]. by apply step_settled.
Qed.

Lemma abort_current_lengths (st : State) :
  length (requests (abort_current st)) = length (requests st) /\
  length (aborted (abort_current st)) = length (aborted st).
Proof.
  unfold abort_current. destruct (abortController st); [| done].
  simpl. by rewrite length_fmap, length_insert.
Qed.

Lemma settle_lengths (k : nat) (s : Status) (st : State) :
  length (requests (settle k s st)) = length (requests st) /\
  aborted (settle k s st) = aborted st /\
  forall i r, requests (settle k s st) !! i = Some r ->
    exists r0, requests st !! i = Some r0 /\ signal r0 = signal r.
Proof.
  unfold settle. destruct (requests st !! k) as [rq |] eqn:Hk; [| by eauto].
  destruct (is_pending rq); [| by eauto]. simpl.
  split; [by rewrite length_insert |]. split; [done |].
  intros i r Hi. destruct (decide (k = i)) as [-> | Hne].
  - rewrite list_lookup_insert_eq in Hi by (by eapply lookup_lt_Some).
    injection Hi as <-. by exists rq.
  - rewrite list_lookup_insert_ne in Hi by done. by exists r.
Qed.

Lemma one_controller_each_step (n : nat) (e : Event) (st : State) :
  one_controller_each n st ->
  one_controller_each (if is_load e then S n else n) (step st e).
Proof.
  intros (Hr & Ha & Hs).
  destruct (abort_current_lengths st) as [Hlr Hla].
  assert (Hsa : forall i r, requests (abort_current st) !! i = Some r -> signal r = i).
  { intros i r. unfold abort_current. destruct (abortController st); [| apply Hs].
    simpl. rewrite list_lookup_fmap. destruct (requests st !! i) as [r0 |] eqn:Hi; [| done].
    intros [= <-]. unfold abort_request. destruct (_ && _); simpl; by apply Hs. }
  destruct e; simpl.
  - rewrite loadMapMarkers_eq. unfold one_controller_each. cbn [fst requests aborted].
    rewrite !length_app. simpl.
    split; [lia |]. split; [lia |]. intros i r Hi.
    apply lookup_app_Some in Hi as [Hi | [Hge Hi]]; [by apply Hsa |].
    destruct (i - length (requests (abort_current st))) eqn:Hd; [| done].
    injection Hi as <-. simpl. lia.
  - destruct (settle_lengths r (Fulfilled ms) st) as (Hl & Hb & Hsig).
    split; [lia |]. split; [by rewrite Hb |]. intros i x Hi.
    destruct (Hsig i x Hi) as (r0 & Hr0 & <-). by apply Hs.
  - destruct (settle_lengths r (Rejected Exc.NetworkError) st) as (Hl & Hb & Hsig).
    split; [lia |]. split; [by rewrite Hb |]. intros i x Hi.
    destruct (Hsig i x Hi) as (r0 & Hr0 & <-). by apply Hs.
  - split; [lia |]. split; [lia |]. exact Hsa.
  - done.
Qed.

Lemma one_controller_each_run (evs : list Event) (n : nat) (st : State) :
  one_controller_each n st -> one_controller_each (n + loads evs) (run evs st).
Proof.
  revert n st. induction evs as [| e evs IH]; intros n st Hinv.
  - simpl. by rewrite Nat.add_0_r.
  - simpl. unfold loads. rewrite filter_cons.
    pose proof (one_controller_each_step n e st Hinv) as Hstep.
    destruct (is_load e) eqn:He.
    + rewrite decide_True by done. simpl.
      replace (n + S (length (filter (fun e0 => is_load e0 = true) evs)))
        with (S n + loads evs) by (unfold loads; lia).
      by apply IH.
    + rewrite decide_False by done. by apply IH.
Qed.

(** X11: Every call of [loadMapMarkers] issues exactly one fetch on exactly one
    new controller, and nothing else ever does: after any run of events
    the fetches and the controllers both number the loads, and fetch [i]
    holds the signal of controller [i]. *)
Theorem one_fetch_one_controller_per_load (s : MapSettings) (evs : list Event) :
  let st := run evs (initial s) in
  length (requests st) = loads evs /\
  length (aborted st) = loads evs /\
  forall i r, requests st !! i = Some r -> signal r = i.
Proof.
  apply (one_controller_each_run evs 0 (initial s)).
  split; [done |]. split; [done |]. intros i r Hi. done.
Qed.

End FetchFacts.

Section ControllerFacts.
Import Filter Loader Fetches.
Context `{Clock}.

(** X12: No controller is left behind un-aborted: after any run of events the
    current controller is one of those allocated, every other controller
    has been aborted, and the abort of the cleanup closure, when that
    closure is called, leaves every controller aborted. *)
Theorem superseded_controllers_aborted (s : MapSettings) (evs : list Event) :
  let st := run evs (initial s) in
  (forall c, abortController st = Some c -> c < length (aborted st)) /\
  (forall c b, aborted st !! c = Some b -> abortController st <> Some c -> b = true) /\
  (forall c b, aborted (step st CleanupAbort) !! c = Some b -> b = true).
Proof.
  intros st.
  assert (Hinv : superseded_aborted st).
  { apply superseded_aborted_run. split; [done |]. intros c b Hc. done. }
  destruct Hinv as [Hcur Hold]. split; [exact Hcur |]. split; [exact Hold |].
  apply (superseded_aborted_abort_current st). by split.
Qed.

Lemma insert_last {A} (l : list A) (x y : A) :
  <[length l := y]> (l ++ [x]) = l ++ [y].
Proof.
  rewrite <- (Nat.add_0_r (length l)). by rewrite insert_app_r.
Qed.

(** X13: The answer to the newest fetch is applied: from any reachable state, a
    load followed by the answer to the fetch it returned leaves that fetch
    fulfilled with the answered markers and nothing in flight. *)
Theorem newest_response_is_delivered (s : MapSettings) (evs : list Event)
    (now : Instant) (ms : list MapMarkerResponseDto) :
  let st := run evs (initial s) in
  let r := snd (loadMapMarkers now st) in
  let st' := step (fst (loadMapMarkers now st)) (Respond r ms) in
  requests st' !! r =
    Some {| query := query (issued now st); signal := signal (issued now st);
            status := Fulfilled ms |} /\
  in_flight st' = [].
Proof.
  intros st r st'.
  assert (Hinv : only_newest_pending st)
    by apply only_newest_pending_run, only_newest_pending_initial.
  subst st' r. rewrite loadMapMarkers_eq. cbn [fst snd step]. unfold settle.
  cbn [requests]. rewrite lookup_app_r by lia. rewrite Nat.sub_diag. cbn [lookup list_lookup].
  change (is_pending (issued now st)) with true. cbn iota.
  unfold in_flight. cbn [requests]. rewrite !insert_last. split.
  - rewrite lookup_app_r by lia. by rewrite Nat.sub_diag.
  - rewrite filter_app, filter_none.
    + reflexivity.
    + apply Forall_lookup. intros i rq. by apply abort_current_none_pending.
Qed.

End ControllerFacts.

(** ** More on the script bootstrapper *)

Section BootstrapFacts.
Import Scripts Bootstrap.

Lemma appendScriptOnce_ready (src : string) (ready : Window -> bool) (d : Dom) :
  ready (window d) = true ->
  appendScriptOnce src ready d =
    ({| href := href d; window := window d; scripts := scripts d;
        promises := promises d ++ [PResolved];
        history := history d ++ [Requested src (length (promises d));
                                 Resolved (length (promises d))] |},
     length (promises d)).
Proof.
  intros Hr. unfold appendScriptOnce. simpl. rewrite Hr.
  unfold resolve. simpl. rewrite lookup_app_r by lia. rewrite Nat.sub_diag. simpl.
  unfold with_promises. simpl. by rewrite insert_last, <- app_assoc.
Qed.

Lemma appendScriptOnce_not_ready (src : string) (ready : Window -> bool) (d : Dom) :
  ready (window d) = false ->
  appendScriptOnce src ready d =
    ({| href := href d; window := window d;
        scripts :=
          match list_find (matches (href d) src) (scripts d) with
          | Some (i, s) => <[i := add_waiter (length (promises d)) s]> (scripts d)
          | None => scripts d ++ [{| attr_src := Some src; load_state := Loading;
                                      waiters := [length (promises d)] |}]
          end;
        promises := promises d ++ [PPending];
        history := history d ++ [Requested src (length (promises d))] |},
     length (promises d)).
Proof.
  intros Hr. unfold appendScriptOnce, matches. simpl. rewrite Hr.
  by destruct (list_find _ _) as [[i s] |].
Qed.

Lemma resume_maps_resolved (d : Dom) (p1 : nat) :
  promises d !! p1 = Some PResolved ->
  resume (d, AwaitMaps p1) =
    (fst (appendScriptOnce clusteringUrl ready_clustering d),
     AwaitClustering p1 (snd (appendScriptOnce clusteringUrl ready_clustering d))).
Proof.
  intros Hp. unfold resume. rewrite Hp.
  by destruct (appendScriptOnce clusteringUrl ready_clustering d).
Qed.

Lemma resume_clustering_resolved (d : Dom) (p1 p2 : nat) :
  promises d !! p2 = Some PResolved ->
  resume (d, AwaitClustering p1 p2) = (d, Returned p1 p2).
Proof. intros Hp. unfold resume. by rewrite Hp. Qed.

Lemma resume_rejected (d : Dom) (p1 : nat) (e : Exc.JSError) :
  promises d !! p1 = Some (PRejected e) ->
  resume (d, AwaitMaps p1) = (d, Thrown e).
Proof. intros Hp. unfold resume. by rewrite Hp. Qed.

Lemma lookup_last {A} (l : list A) (x : A) : (l ++ [x]) !! length l = Some x.
Proof. rewrite lookup_app_r by lia. by rewrite Nat.sub_diag. Qed.

(** X16: When both libraries are already present, the bootstrap returns after
    its two awaits without touching the document's scripts and without
    leaving a promise pending: nothing is inserted and nothing is attached,
    whatever script elements the document holds. *)
Theorem loadNaverStack_already_loaded (CLIENT_ID : string) (d0 : Dom) :
  naver_maps (window d0) = true -> MarkerClustering (window d0) = true ->
  let c := run [Resume; Resume] (loadNaverStack CLIENT_ID d0) in
  snd c = Returned (length (promises d0)) (S (length (promises d0))) /\
  scripts (fst c) = scripts d0 /\
  promises (fst c) = promises d0 ++ [PResolved; PResolved].
Proof.
  intros Hm Hc c. subst c. unfold loadNaverStack.
  rewrite appendScriptOnce_ready by done.
  change (run [Resume; Resume] ?x) with (resume (resume x)).
  rewrite resume_maps_resolved by apply lookup_last.
  rewrite appendScriptOnce_ready by done. cbn [fst snd promises].
  rewrite resume_clustering_resolved by apply lookup_last.
  cbn [fst snd scripts promises]. rewrite length_app. simpl.
  split; [f_equal; lia |]. split; [done |]. by rewrite <- app_assoc.
Qed.

Lemma loadNaverStack_already_loaded_witness :
  snd (run [Resume; Resume]
         (loadNaverStack "KEY" (fresh_document photos_href all_ready []))) =
    Returned 0 1.
Proof.
  apply (loadNaverStack_already_loaded "KEY" (fresh_document photos_href all_ready []));
    reflexivity.
Defined.

Lemma matches_add_waiter (o : string -> string) (src : string) (p : nat) (s : ScriptEl) :
  matches o src (add_waiter p s) <-> matches o src s.
Proof. done. Qed.

(** After a call that found nothing ready, the next call for the same
    [src] finds an element to attach to, if [src] reads back as itself. *)
Lemma appendScriptOnce_leaves_match (src : string) (ready : Window -> bool) (d : Dom) :
  href d src = src -> ready (window d) = false ->
  let d1 := fst (appendScriptOnce src ready d) in
  exists i s,
    list_find (matches (href d1) src) (scripts d1) = Some (i, s) /\
    length (promises d) ∈ waiters s /\
    length (scripts d1) <= S (length (scripts d)).
Proof.
  intros Habs Hr d1. subst d1. rewrite appendScriptOnce_not_ready by done.
  cbn [fst href scripts].
  destruct (list_find (matches (href d) src) (scripts d)) as [[i s] |] eqn:Hfind.
  - apply list_find_Some in Hfind as (Hi & Hm & Hbefore).
    exists i, (add_waiter (length (promises d)) s). split; [| split].
    + apply list_find_Some. split; [| split].
      * apply list_lookup_insert_eq. by eapply lookup_lt_Some.
      * done.
      * intros j y Hj Hlt. rewrite list_lookup_insert_ne in Hj by lia.
        by apply (Hbefore j).
    + simpl. apply elem_of_app. right. by apply list_elem_of_singleton.
    + rewrite length_insert. lia.
  - eexists _, _. split; [| split].
    + rewrite (list_find_app_r _ _ _ Hfind). simpl.
      rewrite decide_True; [done |]. exact Habs.
    + simpl. by apply list_elem_of_singleton.
    + rewrite length_app. simpl. lia.
Qed.

(** X17: For a [src] that an element reads back exactly as it was passed (an
    absolute URL already in the form the browser serialises it to, such as
    the maps URL), two calls made while nothing is ready add at most one
    script element to the document, and both callers end up waiting on one
    and the same element.  Nothing of the kind holds for a [src] that
    reads back changed: a path, a URL with a space in it, a bare
    [https://host] that gains a slash. *)
Theorem appendScriptOnce_canonical_deduplicates
    (src : string) (ready : Window -> bool) (d : Dom) :
  href d src = src -> ready (window d) = false ->
  let c1 := appendScriptOnce src ready d in
  let c2 := appendScriptOnce src ready (fst c1) in
  length (scripts (fst c2)) <= S (length (scripts d)) /\
  exists i s, scripts (fst c2) !! i = Some s /\
    matches (href d) src s /\ snd c1 ∈ waiters s /\ snd c2 ∈ waiters s.
Proof.
  intros Habs Hr c1 c2.
  destruct (appendScriptOnce_leaves_match src ready d Habs Hr) as (i & s & Hfind & Hw & Hlen).
  fold c1 in Hfind, Hlen.
  assert (Hc1 : snd c1 = length (promises d) /\ window (fst c1) = window d /\
                href (fst c1) = href d).
  { subst c1. by rewrite appendScriptOnce_not_ready. }
  destruct Hc1 as (Hp1 & Hw1 & Ho1).
  subst c2. rewrite appendScriptOnce_not_ready by (by rewrite Hw1).
  cbn [fst snd scripts]. rewrite Hfind. rewrite length_insert.
  split; [exact Hlen |].
  apply list_find_Some in Hfind as (Hi & Hm & _).
  exists i, (add_waiter (length (promises (fst c1))) s). split; [| split; [| split]].
  - apply list_lookup_insert_eq. by eapply lookup_lt_Some.
  - rewrite <- Ho1. done.
  - simpl. apply elem_of_app. left. by rewrite Hp1.
  - simpl. apply elem_of_app. right. by apply list_elem_of_singleton.
Qed.

Lemma appendScriptOnce_canonical_deduplicates_witness :
  length (scripts (fst (appendScriptOnce (mapsUrl "KEY") ready_maps
            (fst (appendScriptOnce (mapsUrl "KEY") ready_maps
                    (fresh_document photos_href nothing_ready [])))))) <= 1.
Proof.
  apply (appendScriptOnce_canonical_deduplicates (mapsUrl "KEY") ready_maps
           (fresh_document photos_href nothing_ready [])); reflexivity.
Defined.

End BootstrapFacts.

Section EventFacts.
Import Scripts Bootstrap.

Lemma settle_pending_twice (to s : PromiseState) :
  settle_pending to (settle_pending to s) = settle_pending to s.
Proof. destruct s, to; done. Qed.

Lemma resolve_lookup (q : nat) (d : Dom) (p : nat) :
  promises (resolve q d) !! p =
    if decide (p = q) then settle_pending PResolved <$> promises d !! p
    else promises d !! p.
Proof.
  unfold resolve. destruct (promises d !! q) as [[| |] |] eqn:Hq; simpl;
    case_decide as Hpq; subst; rewrite ?Hq; try done.
  - apply list_lookup_insert_eq. by eapply lookup_lt_Some.
  - by apply list_lookup_insert_ne.
Qed.

Lemma reject_lookup (e : Exc.JSError) (q : nat) (d : Dom) (p : nat) :
  promises (reject e q d) !! p =
    if decide (p = q) then settle_pending (PRejected e) <$> promises d !! p
    else promises d !! p.
Proof.
  unfold reject. destruct (promises d !! q) as [[| |] |] eqn:Hq; simpl;
    case_decide as Hpq; subst; rewrite ?Hq; try done.
  - apply list_lookup_insert_eq. by eapply lookup_lt_Some.
  - by apply list_lookup_insert_ne.
Qed.

Lemma resolve_frame (q : nat) (d : Dom) :
  scripts (resolve q d) = scripts d /\ window (resolve q d) = window d /\
  href (resolve q d) = href d.
Proof. unfold resolve. by destruct (promises d !! q) as [[| |] |]. Qed.

Lemma reject_frame (e : Exc.JSError) (q : nat) (d : Dom) :
  scripts (reject e q d) = scripts d /\ window (reject e q d) = window d /\
  href (reject e q d) = href d.
Proof. unfold reject. by destruct (promises d !! q) as [[| |] |]. Qed.

(** Settling a list of promises one after the other settles exactly the
    pending ones in the list and leaves the document's elements alone. *)
Lemma foldl_settle (f : nat -> Dom -> Dom) (to : nat -> PromiseState) :
  (forall q d p, promises (f q d) !! p =
     if decide (p = q) then settle_pending (to q) <$> promises d !! p
     else promises d !! p) ->
  (forall q d, scripts (f q d) = scripts d /\ window (f q d) = window d /\
               href (f q d) = href d) ->
  forall (ws : list nat) (d : Dom),
    let d' := foldl (fun d0 q => f q d0) d ws in
    (forall p, promises d' !! p =
       if decide (p ∈ ws) then settle_pending (to p) <$> promises d !! p
       else promises d !! p) /\
    scripts d' = scripts d /\ window d' = window d /\ href d' = href d.
Proof.
  intros Hlook Hframe ws. induction ws as [| q ws IH]; intros d d'.
  - subst d'. cbn [foldl]. split; [| done]. intros p.
    destruct (decide (p ∈ [])) as [Hin | _]; [| done]. by apply not_elem_of_nil in Hin.
  - subst d'. cbn [foldl]. destruct (IH (f q d)) as (Hp & Hs & Hw & Ho).
    destruct (Hframe q d) as (Hs' & Hw' & Ho').
    split; [| by rewrite Hs, Hw, Ho].
    intros p. rewrite Hp, Hlook.
    destruct (decide (p = q)) as [-> | Hne].
    + rewrite (decide_True (P := q ∈ q :: ws)) by (apply elem_of_cons; by left).
      case_decide; [| done].
      destruct (promises d !! q); simpl; [| done]. by rewrite settle_pending_twice.
    + destruct (decide (p ∈ ws)) as [Hin | Hout].
      * rewrite decide_True; [done |]. apply elem_of_cons. by right.
      * rewrite decide_False; [done |]. intros Hin.
        apply elem_of_cons in Hin as [? | ?]; done.
Qed.

Lemma set_load_state_frame (i : nat) (ls : LoadState) (d : Dom) (s : ScriptEl) :
  scripts d !! i = Some s ->
  set_load_state i ls d =
    {| href := href d; window := window d;
       scripts := <[i := {| attr_src := attr_src s; load_state := ls;
                            waiters := waiters s |}]> (scripts d);
       promises := promises d; history := history d |}.
Proof. intros Hi. unfold set_load_state. by rewrite Hi. Qed.

Lemma fire_load_effect (i : nat) (w : Window) (d : Dom) (s : ScriptEl) :
  scripts d !! i = Some s -> load_state s = Loading ->
  href (fire_load i w d) = href d /\
  window (fire_load i w d) = w /\
  scripts (fire_load i w d) =
    <[i := {| attr_src := attr_src s; load_state := Loaded;
              waiters := waiters s |}]> (scripts d) /\
  forall p, promises (fire_load i w d) !! p =
    if decide (p ∈ waiters s) then settle_pending PResolved <$> promises d !! p
    else promises d !! p.
Proof.
  intros Hi Hloading. unfold fire_load. rewrite Hi, Hloading.
  rewrite (set_load_state_frame i Loaded _ s) by done.
  match goal with
  | |- context [foldl _ ?d0 (waiters s)] =>
      destruct (foldl_settle resolve (fun _ => PResolved) resolve_lookup resolve_frame
                  (waiters s) d0) as (Hp & Hs & Hw & Ho)
  end.
  cbv zeta in *. by rewrite Hs, Hw, Ho.
Qed.

Lemma fire_error_effect (i : nat) (d : Dom) (s : ScriptEl) :
  scripts d !! i = Some s -> load_state s = Loading ->
  href (fire_error i d) = href d /\
  window (fire_error i d) = window d /\
  scripts (fire_error i d) =
    <[i := {| attr_src := attr_src s; load_state := Errored;
              waiters := waiters s |}]> (scripts d) /\
  forall p, promises (fire_error i d) !! p =
    if decide (p ∈ waiters s)
    then settle_pending (PRejected (Exc.LoadError (requested_src p (history d))))
           <$> promises d !! p
    else promises d !! p.
Proof.
  intros Hi Hloading. unfold fire_error. rewrite Hi, Hloading.
  rewrite (set_load_state_frame i Errored _ s) by done.
  match goal with
  | |- context [foldl _ ?d0 (waiters s)] =>
      destruct (foldl_settle
                  (fun q => reject (Exc.LoadError (requested_src q (history d))) q)
                  (fun q => PRejected (Exc.LoadError (requested_src q (history d))))
                  (fun q => reject_lookup _ q) (fun q => reject_frame _ q)
                  (waiters s) d0) as (Hp & Hs & Hw & Ho)
  end.
  cbv zeta in *. by rewrite Hs, Hw, Ho.
Qed.

Lemma requested_src_last (p : nat) (src : string) (h : list Occurrence) :
  requested_src p (h ++ [Requested src p]) = src.
Proof. unfold requested_src. rewrite foldl_app. simpl. by rewrite Nat.eqb_refl. Qed.

(** X18: The [load] event of an element that is still loading leaves the window
    as the script made it, marks the element loaded, resolves every
    pending promise waiting on the element and touches no other promise;
    its [error] event marks it failed, rejects every pending promise
    waiting on it, each with the [Failed: <src>] of its own caller, and
    touches no other promise. *)
Theorem fire_settles_the_waiters (i : nat) (w : Window) (d : Dom) (s : ScriptEl) :
  scripts d !! i = Some s -> load_state s = Loading ->
  (window (fire_load i w d) = w /\
   scripts (fire_load i w d) =
     <[i := {| attr_src := attr_src s; load_state := Loaded;
               waiters := waiters s |}]> (scripts d) /\
   forall p, promises (fire_load i w d) !! p =
     if decide (p ∈ waiters s) then settle_pending PResolved <$> promises d !! p
     else promises d !! p) /\
  (window (fire_error i d) = window d /\
   scripts (fire_error i d) =
     <[i := {| attr_src := attr_src s; load_state := Errored;
               waiters := waiters s |}]> (scripts d) /\
   (forall p, p ∈ waiters s -> promises d !! p = Some PPending ->
      promises (fire_error i d) !! p =
        Some (PRejected (Exc.LoadError (requested_src p (history d))))) /\
   (forall p, p ∉ waiters s -> promises (fire_error i d) !! p = promises d !! p)).
Proof.
  intros Hi Hloading.
  destruct (fire_load_effect i w d s Hi Hloading) as (_ & Hw & Hs & Hp).
  destruct (fire_error_effect i d s Hi Hloading) as (_ & Hw' & Hs' & Hp').
  split; [done |]. split; [done |]. split; [done |]. split.
  - intros p Hin Hpend. rewrite Hp', decide_True by done.
    by rewrite Hpend.
  - intros p Hout. by rewrite Hp', decide_False.
Qed.

Lemma fire_settles_the_waiters_witness :
  let d := fst (appendScriptOnce (mapsUrl "KEY") ready_maps
                  (fresh_document photos_href nothing_ready [])) in
  promises (fire_load 0 all_ready d) !! 0 = Some PResolved.
Proof.
  intros d.
  destruct (fire_settles_the_waiters 0 all_ready d
              {| attr_src := Some (mapsUrl "KEY"); load_state := Loading; waiters := [0] |})
    as [(_ & _ & Hp) _]; [reflexivity | reflexivity |].
  rewrite Hp. reflexivity.
Defined.

End EventFacts.

Section RunFacts.
Import Scripts Bootstrap.

Lemma evolves_resume (c : Dom * Stack) : evolves (fst c) (fst (resume c)).
Proof.
  destruct c as [d t]. unfold resume.
  destruct t as [p1 | p1 p2 | p1 p2 | e]; try apply evolves_refl.
  - destruct (promises d !! p1) as [[| | e] |]; try apply evolves_refl.
    pose proof (appendScriptOnce_effect clusteringUrl ready_clustering d) as Heff.
    destruct (appendScriptOnce clusteringUrl ready_clustering d) as [d' p2].
    apply Heff.
  - destruct (promises d !! p2) as [[| | e] |]; apply evolves_refl.
Qed.

Lemma evolves_step (c : Dom * Stack) (e : Event) : evolves (fst c) (fst (step c e)).
Proof.
  destruct e as [i w | i | src ready |]; simpl.
  - apply evolves_fire_load.
  - apply evolves_fire_error.
  - apply (appendScriptOnce_effect src ready (fst c)).
  - apply evolves_resume.
Qed.

Lemma evolves_run (evs : list Event) (c : Dom * Stack) :
  evolves (fst c) (fst (run evs c)).
Proof.
  revert c. induction evs as [| e evs IH]; intros c; [apply evolves_refl |].
  simpl. eapply evolves_trans; [apply evolves_step | apply IH].
Qed.

(** X19: A promise that has resolved or rejected keeps that outcome, and the
    history is only ever extended, through every later script event, call
    and resumption. *)
Theorem settled_promise_is_final (evs : list Event) (c : Dom * Stack)
    (p : nat) (s : PromiseState) :
  promises (fst c) !! p = Some s -> s <> PPending ->
  promises (fst (run evs c)) !! p = Some s /\
  exists hx, history (fst (run evs c)) = history (fst c) ++ hx.
Proof.
  intros Hp Hs. destruct (evolves_run evs c) as (hx & Hh & Hmove).
  split; [| by exists hx]. specialize (Hmove p s Hp). by destruct s.
Qed.

Lemma settled_promise_is_final_witness :
  let c := run [FireError 0; Resume]
             (loadNaverStack "KEY" (fresh_document photos_href nothing_ready [])) in
  promises (fst (run [FireLoad 0 all_ready; OtherCall (mapsUrl "KEY") ready_maps; Resume] c))
    !! 0 = Some (PRejected (Exc.LoadError (mapsUrl "KEY"))).
Proof.
  intros c.
  apply (settled_promise_is_final
           [FireLoad 0 all_ready; OtherCall (mapsUrl "KEY") ready_maps; Resume] c 0
           (PRejected (Exc.LoadError (mapsUrl "KEY")))); [reflexivity | discriminate].
Defined.

Lemma run_thrown (evs : list Event) (d : Dom) (e : Exc.JSError) :
  snd (run evs (d, Thrown e)) = Thrown e.
Proof.
  revert d. induction evs as [| ev evs IH]; intros d; [done |].
  destruct ev; simpl; apply IH.
Qed.

(** X20: When the maps script fails to load (nothing was ready and no element
    carried its URL), the bootstrap throws [Failed: <maps URL>] at its
    first await: the failed element is the only one added, no clustering
    script has been inserted, and the execution stays thrown whatever
    happens afterwards. *)
Theorem loadNaverStack_maps_error (CLIENT_ID : string) (d0 : Dom) :
  naver_maps (window d0) = false ->
  list_find (matches (href d0) (mapsUrl CLIENT_ID)) (scripts d0) = None ->
  let c := run [FireError (length (scripts d0)); Resume] (loadNaverStack CLIENT_ID d0) in
  snd c = Thrown (Exc.LoadError (mapsUrl CLIENT_ID)) /\
  scripts (fst c) =
    scripts d0 ++ [{| attr_src := Some (mapsUrl CLIENT_ID); load_state := Errored;
                      waiters := [length (promises d0)] |}] /\
  count_src clusteringUrl (fst c) = count_src clusteringUrl d0 /\
  forall evs, snd (run evs c) = Thrown (Exc.LoadError (mapsUrl CLIENT_ID)).
Proof.
  intros Hready Hfind c.
  set (el := {| attr_src := Some (mapsUrl CLIENT_ID); load_state := Loading;
                waiters := [length (promises d0)] |}).
  set (d1 := {| href := href d0; window := window d0;
                scripts := scripts d0 ++ [el];
                promises := promises d0 ++ [PPending];
                history := history d0 ++
                           [Requested (mapsUrl CLIENT_ID) (length (promises d0))] |}).
  assert (Hstart : loadNaverStack CLIENT_ID d0 = (d1, AwaitMaps (length (promises d0)))).
  { unfold loadNaverStack. rewrite appendScriptOnce_not_ready by done. by rewrite Hfind. }
  destruct (fire_error_effect (length (scripts d0)) d1 el) as (_ & _ & Hs & Hp);
    [apply lookup_last | done |].
  assert (Hrej : promises (fire_error (length (scripts d0)) d1) !! length (promises d0) =
                 Some (PRejected (Exc.LoadError (mapsUrl CLIENT_ID)))).
  { rewrite Hp, decide_True by (by apply list_elem_of_singleton).
    cbn [history promises d1]. unfold d1. cbn [history promises].
    by rewrite lookup_last, requested_src_last. }
  assert (Hc : c = (fire_error (length (scripts d0)) d1,
                    Thrown (Exc.LoadError (mapsUrl CLIENT_ID)))).
  { subst c. rewrite Hstart.
    change (run [FireError ?i; Resume] (?d, ?t)) with (resume (fire_error i d, t)).
    by apply resume_rejected. }
  rewrite Hc. cbn [fst snd]. split; [done |].
  assert (Hscripts : scripts (fire_error (length (scripts d0)) d1) =
            scripts d0 ++ [{| attr_src := Some (mapsUrl CLIENT_ID); load_state := Errored;
                              waiters := [length (promises d0)] |}]).
  { rewrite Hs. simpl. by rewrite insert_last. }
  split; [exact Hscripts |]. split.
  - unfold count_src. rewrite Hscripts, filter_app, length_app.
    rewrite filter_cons_False by (simpl; discriminate). simpl. lia.
  - intros evs. apply run_thrown.
Qed.

Lemma loadNaverStack_maps_error_witness :
  snd (run [FireError 0; Resume]
         (loadNaverStack "KEY" (fresh_document photos_href nothing_ready []))) =
    Thrown (Exc.LoadError (mapsUrl "KEY")).
Proof.
  apply (loadNaverStack_maps_error "KEY" (fresh_document photos_href nothing_ready []));
    reflexivity.
Defined.

End RunFacts.

Section StrandedFacts.
Import Scripts Bootstrap.

Lemma stays_stranded_appendScriptOnce (p : nat) (src : string)
    (ready : Window -> bool) (d : Dom) :
  stays_stranded p d -> stays_stranded p (fst (appendScriptOnce src ready d)).
Proof.
  intros ([Hpend Hfree] & Hknown & Hlt).
  destruct (ready (window d)) eqn:Hr.
  - rewrite appendScriptOnce_ready by done. cbn [fst].
    split; [split |]; [| | split]; unfold waiters_known; simpl.
    + by apply lookup_app_l_Some.
    + exact Hfree.
    + intros i s q Hi Hq. rewrite length_app. simpl.
      specialize (Hknown i s q Hi Hq). lia.
    + rewrite length_app. simpl. lia.
  - rewrite appendScriptOnce_not_ready by done. cbn [fst].
    assert (Hnew : forall i s, 
              match list_find (matches (href d) src) (scripts d) with
              | Some (j, s0) => <[j := add_waiter (length (promises d)) s0]> (scripts d)
              | None => scripts d ++ [{| attr_src := Some src; load_state := Loading;
                                          waiters := [length (promises d)] |}]
              end !! i = Some s ->
              exists ws, (forall q, q ∈ waiters s ->
                            q ∈ ws \/ q = length (promises d)) /\
                (ws = [] \/ exists s0, scripts d !! i = Some s0 /\ ws = waiters s0 /\
                                       load_state s0 = load_state s)).
    { intros i s Hi.
      destruct (list_find (matches (href d) src) (scripts d)) as [[j s0] |] eqn:Hfind.
      - apply list_find_Some in Hfind as (Hj & _ & _).
        destruct (decide (j = i)) as [-> | Hne].
        + rewrite list_lookup_insert_eq in Hi by (by eapply lookup_lt_Some).
          injection Hi as <-. exists (waiters s0). split.
          * simpl. intros q Hq. apply elem_of_app in Hq as [Hq | Hq]; [by left |].
            right. by apply list_elem_of_singleton in Hq.
          * right. by exists s0.
        + rewrite list_lookup_insert_ne in Hi by done.
          exists (waiters s). split; [by left |]. right. by exists s.
      - apply lookup_app_Some in Hi as [Hi | [Hge Hi]].
        + exists (waiters s). split; [by left |]. right. by exists s.
        + destruct (i - length (scripts d)) eqn:Hd; [| done].
          injection Hi as <-. exists []. split; [| by left].
          simpl. intros q Hq. right. by apply list_elem_of_singleton in Hq. }
    split; [split |]; [| | split]; unfold waiters_known; simpl.
    + by apply lookup_app_l_Some.
    + intros i s Hi Hload Hin. destruct (Hnew i s Hi) as (ws & Hws & Horigin).
      destruct (Hws p Hin) as [Hin' | ->]; [| lia].
      destruct Horigin as [-> | (s0 & Hi0 & -> & Hls)]; [by apply elem_of_nil in Hin' |].
      apply (Hfree i s0 Hi0); [congruence | done].
    + intros i s q Hi Hq. rewrite length_app. simpl.
      destruct (Hnew i s Hi) as (ws & Hws & Horigin).
      destruct (Hws q Hq) as [Hin' | ->]; [| lia].
      destruct Horigin as [-> | (s0 & Hi0 & -> & _)]; [by apply elem_of_nil in Hin' |].
      specialize (Hknown i s0 q Hi0 Hin'). lia.
    + rewrite length_app. simpl. lia.
Qed.

(** Marking element [i] as finished and settling its waiters keeps [p]
    stranded, given how the promises moved. *)
Lemma stays_stranded_fired (p i : nat) (d d' : Dom) (s : ScriptEl)
    (ls : LoadState) (to : nat -> PromiseState) :
  stays_stranded p d ->
  scripts d !! i = Some s -> load_state s = Loading -> ls <> Loading ->
  scripts d' = <[i := {| attr_src := attr_src s; load_state := ls;
                         waiters := waiters s |}]> (scripts d) ->
  (forall q, promises d' !! q =
     if decide (q ∈ waiters s) then settle_pending (to q) <$> promises d !! q
     else promises d !! q) ->
  stays_stranded p d'.
Proof.
  intros ([Hpend Hfree] & Hknown & Hlt) Hi Hl Hls Hs Hp.
  assert (Hsome : forall q, q < length (promises d) -> q < length (promises d')).
  { intros q Hq. apply lookup_lt_is_Some. apply lookup_lt_is_Some in Hq as [x Hx].
    rewrite Hp, Hx. by case_decide. }
  assert (Hold : forall j s', scripts d' !! j = Some s' ->
            (j = i /\ load_state s' = ls /\ waiters s' = waiters s) \/
            scripts d !! j = Some s').
  { intros j s' Hj. rewrite Hs in Hj. destruct (decide (i = j)) as [-> | Hne].
    - rewrite list_lookup_insert_eq in Hj by (by eapply lookup_lt_Some).
      injection Hj as <-. by left.
    - rewrite list_lookup_insert_ne in Hj by done. by right. }
  split; [split |]; [| | split].
  - rewrite Hp, decide_False; [done |]. by apply (Hfree i s).
  - intros j s' Hj Hload. destruct (Hold j s' Hj) as [(_ & Hls' & _) | Hj'].
    + congruence.
    + by apply (Hfree j s').
  - intros j s' q Hj Hq. apply Hsome.
    destruct (Hold j s' Hj) as [(_ & _ & Hw) | Hj'].
    + rewrite Hw in Hq. by apply (Hknown i s q).
    + by apply (Hknown j s' q).
  - by apply Hsome.
Qed.

Lemma stays_stranded_fire_load (p i : nat) (w : Window) (d : Dom) :
  stays_stranded p d -> stays_stranded p (fire_load i w d).
Proof.
  intros Hinv. destruct (scripts d !! i) as [s |] eqn:Hi.
  - destruct (load_state s) eqn:Hl.
    + destruct (fire_load_effect i w d s Hi Hl) as (_ & _ & Hs & Hp).
      by apply (stays_stranded_fired p i d _ s Loaded (fun _ => PResolved)).
    + unfold fire_load. by rewrite Hi, Hl.
    + unfold fire_load. by rewrite Hi, Hl.
  - unfold fire_load. by rewrite Hi.
Qed.

Lemma stays_stranded_fire_error (p i : nat) (d : Dom) :
  stays_stranded p d -> stays_stranded p (fire_error i d).
Proof.
  intros Hinv. destruct (scripts d !! i) as [s |] eqn:Hi.
  - destruct (load_state s) eqn:Hl.
    + destruct (fire_error_effect i d s Hi Hl) as (_ & _ & Hs & Hp).
      by apply (stays_stranded_fired p i d _ s Errored
                  (fun q => PRejected (Exc.LoadError (requested_src q (history d))))).
    + unfold fire_error. by rewrite Hi, Hl.
    + unfold fire_error. by rewrite Hi, Hl.
  - unfold fire_error. by rewrite Hi.
Qed.

Lemma stays_stranded_step (p : nat) (c : Dom * Stack) (e : Event) :
  stays_stranded p (fst c) -> stays_stranded p (fst (step c e)).
Proof.
  intros Hinv. destruct e as [i w | i | src ready |]; simpl.
  - by apply stays_stranded_fire_load.
  - by apply stays_stranded_fire_error.
  - by apply stays_stranded_appendScriptOnce.
  - destruct c as [d t]. unfold resume.
    destruct t as [p1 | p1 p2 | p1 p2 | e]; try done.
    + destruct (promises d !! p1) as [[| | e] |]; try done.
      pose proof (stays_stranded_appendScriptOnce p clusteringUrl ready_clustering d Hinv)
        as Hnext.
      by destruct (appendScriptOnce clusteringUrl ready_clustering d).
    + by destruct (promises d !! p2) as [[| | e] |].
Qed.

Lemma stays_stranded_run (p : nat) (evs : list Event) (c : Dom * Stack) :
  stays_stranded p (fst c) -> stays_stranded p (fst (run evs c)).
Proof.
  revert c. induction evs as [| e evs IH]; intros c Hinv; [done |].
  simpl. apply IH. by apply stays_stranded_step.
Qed.

(** X21: A caller that finds an element for its [src] which has already fired
    (loaded while [ready()] is still false, or failed) attaches to it and
    then waits for ever: under every later course of script events, calls
    and resumptions its promise stays pending, neither resolved nor
    rejected. *)
Theorem attached_to_finished_element_never_settles
    (src : string) (ready : Window -> bool) (d : Dom) (i : nat) (s : ScriptEl)
    (t : Stack) (evs : list Event) :
  waiters_known d ->
  ready (window d) = false ->
  list_find (matches (href d) src) (scripts d) = Some (i, s) ->
  load_state s <> Loading ->
  let c := appendScriptOnce src ready d in
  promises (fst (run evs (fst c, t))) !! snd c = Some PPending.
Proof.
  intros Hknown Hr Hfind Hdone c.
  apply (stays_stranded_run (snd c) evs (fst c, t)). subst c.
  rewrite appendScriptOnce_not_ready by done. rewrite Hfind. cbn [fst snd].
  apply list_find_Some in Hfind as (Hi & _ & _).
  assert (Hold : forall j s', <[i := add_waiter (length (promises d)) s]> (scripts d) !! j
                              = Some s' ->
            (j = i /\ s' = add_waiter (length (promises d)) s) \/
            scripts d !! j = Some s').
  { intros j s' Hj. destruct (decide (i = j)) as [-> | Hne].
    - rewrite list_lookup_insert_eq in Hj by (by eapply lookup_lt_Some).
      injection Hj as <-. by left.
    - rewrite list_lookup_insert_ne in Hj by done. by right. }
  split; [split |]; [| | split]; unfold waiters_known; simpl.
  - apply lookup_last.
  - intros j s' Hj Hload Hin. destruct (Hold j s' Hj) as [[_ ->] | Hj'].
    + by apply Hdone.
    + specialize (Hknown j s' _ Hj' Hin). lia.
  - intros j s' q Hj Hq. rewrite length_app. simpl.
    destruct (Hold j s' Hj) as [[_ ->] | Hj'].
    + simpl in Hq. apply elem_of_app in Hq as [Hq | Hq].
      * specialize (Hknown i s q Hi Hq). lia.
      * apply list_elem_of_singleton in Hq. lia.
    + specialize (Hknown j s' q Hj' Hq). lia.
  - rewrite length_app. simpl. lia.
Qed.

End StrandedFacts.

Lemma attached_to_finished_element_never_settles_witness :
  let d := Scripts.fire_error 0
             (fst (Scripts.appendScriptOnce (Scripts.mapsUrl "KEY") Scripts.ready_maps
                     (Scripts.fresh_document Scripts.photos_href
                        Scripts.nothing_ready []))) in
  let c := Scripts.appendScriptOnce (Scripts.mapsUrl "KEY") Scripts.ready_maps d in
  Scripts.promises
    (fst (Scripts.run [Scripts.FireLoad 0 Bootstrap.all_ready; Scripts.FireError 0;
                       Scripts.Resume]
            (fst c, Scripts.AwaitMaps (snd c)))) !! snd c = Some Scripts.PPending.
Proof.
  intros d c.
  apply (attached_to_finished_element_never_settles
           (Scripts.mapsUrl "KEY") Scripts.ready_maps d 0
           {| Scripts.attr_src := Some (Scripts.mapsUrl "KEY");
              Scripts.load_state := Scripts.Errored; Scripts.waiters := [0] |}).
  - intros i s q Hi Hq. destruct i as [| i]; [| done].
    injection Hi as <-. apply list_elem_of_singleton in Hq. subst q. simpl. lia.
  - reflexivity.
  - reflexivity.
  - discriminate.
Defined.

(** ** More on the map's listeners and teardown *)

Section RegistryFacts.
Import Lifecycle Registry.

Lemma handles_fresh_addListener (t : Target) (e : EventName) (h : Handler) (w : World) :
  handles_fresh w ->
  handles_fresh (fst (addListener t e h w)) /\
  length (listeners (fst (addListener t e h w))) = S (length (listeners w)).
Proof.
  intros [Hnd Hlt]. split; [split |]; simpl.
  - rewrite fmap_app. apply NoDup_app. split; [done |]. split.
    + intros x Hx Hin. apply list_elem_of_singleton in Hin. subst x.
      apply list_elem_of_fmap in Hx as (l & Hl & Hin).
      rewrite Forall_forall in Hlt. specialize (Hlt l Hin). simpl in *. lia.
    + apply NoDup_singleton.
  - apply Forall_app. split.
    + eapply Forall_impl; [exact Hlt |]. simpl. intros l Hl. lia.
    + apply Forall_singleton. simpl. lia.
  - rewrite length_app. simpl. lia.
Qed.

Lemma handles_fresh_same (w w' : World) :
  listeners w' = listeners w -> next_handle w' = next_handle w ->
  handles_fresh w -> handles_fresh w'.
Proof. unfold handles_fresh. by intros -> ->. Qed.

Lemma create_markers_registry (l : list Loader.MapMarkerResponseDto) (i : nat) (w : World) :
  handles_fresh w ->
  handles_fresh (create_markers i l w) /\
  length (listeners (create_markers i l w)) = length (listeners w) + 2 * length l.
Proof.
  revert i w. induction l as [| o l IH]; intros i w Hw; simpl; [split; [done | lia] |].
  assert (Hstep : handles_fresh (create_marker i o w) /\
                  length (listeners (create_marker i o w)) = S (S (length (listeners w)))).
  { unfold create_marker.
    match goal with
    | |- context [addListener (TMarker i) mouseover _ ?w0] =>
        destruct (handles_fresh_addListener (TMarker i) mouseover (MarkerHoverEnter i) w0)
          as [H1 L1]; [by apply (handles_fresh_same w) |];
        destruct (handles_fresh_addListener (TMarker i) mouseout (MarkerHoverLeave i)
                    (fst (addListener (TMarker i) mouseover (MarkerHoverEnter i) w0)))
          as [H2 L2]; [done |]
    end.
    split; [exact H2 |]. rewrite L2, L1. done. }
  destruct Hstep as [Hf Hlen]. destruct (IH (S i) _ Hf) as [Hf' Hlen'].
  split; [exact Hf' |]. rewrite Hlen', Hlen. lia.
Qed.

Lemma clicks_registry (ixs : list nat) (w : World) :
  handles_fresh w ->
  let w' := foldl (fun w i => fst (addListener (TMarker i) click (MarkerClick i) w)) w ixs in
  handles_fresh w' /\ length (listeners w') = length (listeners w) + length ixs.
Proof.
  revert w. induction ixs as [| i ixs IH]; intros w Hw; cbn [foldl]; [split; [done | simpl; lia] |].
  destruct (handles_fresh_addListener (TMarker i) click (MarkerClick i) w Hw) as [H1 L1].
  destruct (IH _ H1) as [H2 L2]. cbv zeta in *. split; [exact H2 |].
  rewrite L2, L1. simpl. lia.
Qed.

Lemma build_registry (ml : list Loader.MapMarkerResponseDto) (w : World) :
  handles_fresh w ->
  handles_fresh (fst (build ml w)) /\
  length (listeners (fst (build ml w))) = length (listeners w) + 3 * length ml + 1.
Proof.
  intros Hw.
  set (w1 := {| page := page w; loader := loader w; map_built := true;
                markers := []; clusters := clusters w; clusterer := clusterer w;
                listeners := listeners w; next_handle := next_handle w |}).
  set (w2 := create_markers 0 ml w1).
  set (w4 := fst (addListener TMap idle IdleLog (with_clusterer Attached w2))).
  assert (Hb : fst (build ml w) = register_clicks w4) by reflexivity.
  destruct (create_markers_registry ml 0 w1) as [H2 L2];
    [by apply (handles_fresh_same w) |].
  fold w2 in H2, L2.
  destruct (handles_fresh_addListener TMap idle IdleLog (with_clusterer Attached w2))
    as [H3 L3]; [by apply (handles_fresh_same w2) |].
  fold w4 in H3, L3.
  destruct (clicks_registry (seq 0 (length (markers w4))) w4 H3) as [H5 L5].
  cbv zeta in H5, L5. fold (register_clicks w4) in H5, L5.
  rewrite Hb. split; [exact H5 |].
  rewrite L5, L3. change (listeners (with_clusterer Attached w2)) with (listeners w2).
  rewrite L2, length_seq. change (markers w4) with (markers w2).
  unfold w2. rewrite (proj1 (create_markers_effect ml 0 w1 TMap)). simpl.
  rewrite length_fmap. lia.
Qed.

Lemma create_marker_handlers (i : nat) (o : Loader.MapMarkerResponseDto) (w : World)
    (t : Target) (e : EventName) :
  handlers_of t e (create_marker i o w) =
    handlers_of t e w ++
    (if decide (TMarker i = t /\ mouseover = e) then [MarkerHoverEnter i] else []) ++
    (if decide (TMarker i = t /\ mouseout = e) then [MarkerHoverLeave i] else []).
Proof.
  unfold create_marker. rewrite !addListener_handlers. by rewrite <- app_assoc.
Qed.

Ltac decide_cases :=
  repeat case_decide; rewrite ?app_nil_r; simpl; try done;
  try (exfalso;
       repeat match goal with
              | H : _ /\ _ |- _ => destruct H
              | H : TMarker _ = TMarker _ |- _ => injection H as H
              end;
       subst;
       first [ lia | congruence
             | match goal with
               | H : ~ _ |- _ => apply H; repeat split; (done || lia)
               end ]).

(** Creating markers [i], [i+1], ... gives each its two hover closures
    and registers nothing else. *)
Lemma create_markers_handlers (l : list Loader.MapMarkerResponseDto) (i : nat) (w : World)
    (t : Target) (e : EventName) :
  handlers_of t e (create_markers i l w) =
    handlers_of t e w ++
    match t, e with
    | TMarker j, mouseover =>
        if decide (i <= j < i + length l) then [MarkerHoverEnter j] else []
    | TMarker j, mouseout =>
        if decide (i <= j < i + length l) then [MarkerHoverLeave j] else []
    | _, _ => []
    end.
Proof.
  revert i w. induction l as [| o l IH]; intros i w; cbn [create_markers length].
  - destruct t as [| j | c], e; decide_cases.
  - rewrite IH, create_marker_handlers, <- !app_assoc. f_equal.
    destruct t as [| j | c]; [| destruct (decide (i = j)) as [-> | Hne] |];
      destruct e; decide_cases.
Qed.

(** Registering the click closures gives marker [j] one [click] closure
    for each time [j] is listed, and registers nothing else. *)
Lemma clicks_handlers (ixs : list nat) (w : World) (t : Target) (e : EventName) :
  handlers_of t e
    (foldl (fun w i => fst (addListener (TMarker i) click (MarkerClick i) w)) w ixs) =
  handlers_of t e w ++
  match t, e with
  | TMarker j, click => MarkerClick <$> filter (fun k => k = j) ixs
  | _, _ => []
  end.
Proof.
  revert w. induction ixs as [| i ixs IH]; intros w; cbn [foldl].
  - destruct t as [| j | c], e; by rewrite ?app_nil_r.
  - rewrite IH, addListener_handlers, <- app_assoc. f_equal.
    destruct t as [| j | c], e; rewrite ?filter_cons; decide_cases.
Qed.

(** Every closure in the registry once [build] has run. *)
Lemma build_handlers (ml : list Loader.MapMarkerResponseDto) (w : World)
    (t : Target) (e : EventName) :
  handlers_of t e (fst (build ml w)) =
    handlers_of t e w ++
    match t, e with
    | TMarker j, mouseover => if decide (j < length ml) then [MarkerHoverEnter j] else []
    | TMarker j, mouseout => if decide (j < length ml) then [MarkerHoverLeave j] else []
    | TMarker j, click => if decide (j < length ml) then [MarkerClick j] else []
    | TMap, idle => [IdleLog]
    | _, _ => []
    end.
Proof.
  set (w1 := {| page := page w; loader := loader w; map_built := true;
                markers := []; clusters := clusters w; clusterer := clusterer w;
                listeners := listeners w; next_handle := next_handle w |}).
  set (w2 := create_markers 0 ml w1).
  set (w4 := fst (addListener TMap idle IdleLog (with_clusterer Attached w2))).
  assert (Hb : fst (build ml w) = register_clicks w4) by reflexivity.
  rewrite Hb. unfold register_clicks. rewrite clicks_handlers.
  assert (Hm4 : length (markers w4) = length ml).
  { change (markers w4) with (markers w2). unfold w2.
    rewrite (proj1 (create_markers_effect ml 0 w1 TMap)). simpl. by rewrite length_fmap. }
  rewrite Hm4.
  assert (H4 : handlers_of t e w4 =
               handlers_of t e w2 ++ (if decide (TMap = t /\ idle = e) then [IdleLog] else []))
    by (unfold w4; by rewrite addListener_handlers).
  rewrite H4. unfold w2. rewrite create_markers_handlers.
  change (handlers_of t e w1) with (handlers_of t e w).
  rewrite <- !app_assoc. f_equal.
  destruct t as [| j | c], e; rewrite ?filter_eq_seq; decide_cases.
Qed.

Lemma build_map_built (ml : list Loader.MapMarkerResponseDto) (w : World) :
  map_built (fst (build ml w)) = true.
Proof.
  unfold build. cbn [addListener]. cbv zeta. cbn [fst].
  unfold register_clicks.
  match goal with
  | |- map_built (foldl ?f ?w0 ?l) = true =>
      assert (Hg : forall ixs w1, map_built (foldl f w1 ixs) = map_built w1)
        by (induction ixs as [| j ixs IH]; intros w1; [done | cbn [foldl]; by rewrite IH]);
      rewrite Hg
  end.
  simpl.
  assert (Hcm : forall l i w1, map_built (create_markers i l w1) = map_built w1)
    by (induction l as [| o l IH]; intros i w1; [done | simpl; by rewrite IH]).
  by rewrite Hcm.
Qed.

(** X22: Startup builds one marker per fetched record, in the order fetched and
    carrying the record's id.  Every marker gets exactly three closures,
    its own [mouseover], [mouseout] and [click] closure, one for each
    event; the map gets the one [idle] closure; nothing else is
    registered on any target for any event, which makes [3n+1] listeners
    in all.  The map is built and the clusterer is on it. *)
Theorem build_markers_and_listeners (ml : list Loader.MapMarkerResponseDto) (s : Filter.MapSettings) :
  let w := fst (build ml (initial s)) in
  m_id <$> markers w = Loader.id <$> ml /\
  length (listeners w) = 3 * length ml + 1 /\
  map_built w = true /\
  clusterer w = Attached /\
  (forall i, i < length ml ->
     handlers_of (TMarker i) mouseover w = [MarkerHoverEnter i] /\
     handlers_of (TMarker i) mouseout w = [MarkerHoverLeave i] /\
     handlers_of (TMarker i) click w = [MarkerClick i]) /\
  handlers_of TMap idle w = [IdleLog] /\
  (forall t e, handlers_of t e w =
     match t, e with
     | TMarker i, mouseover => if decide (i < length ml) then [MarkerHoverEnter i] else []
     | TMarker i, mouseout => if decide (i < length ml) then [MarkerHoverLeave i] else []
     | TMarker i, click => if decide (i < length ml) then [MarkerClick i] else []
     | TMap, idle => [IdleLog]
     | _, _ => []
     end).
Proof.
  intros w. subst w.
  destruct (build_effect ml (initial s)) as (Hm & _ & _ & _ & Hc & _).
  destruct (build_registry ml (initial s)) as [_ Hlen].
  { split; [apply NoDup_nil_2 | apply Forall_nil_2]. }
  assert (Hall : forall t e, handlers_of t e (fst (build ml (initial s))) =
            match t, e with
            | TMarker i, mouseover => if decide (i < length ml) then [MarkerHoverEnter i] else []
            | TMarker i, mouseout => if decide (i < length ml) then [MarkerHoverLeave i] else []
            | TMarker i, click => if decide (i < length ml) then [MarkerClick i] else []
            | TMap, idle => [IdleLog]
            | _, _ => []
            end).
  { intros t e. by rewrite build_handlers. }
  split; [| split; [| split; [| split; [| split; [| split]]]]].
  - rewrite Hm, <- list_fmap_compose. done.
  - rewrite Hlen. simpl. lia.
  - apply build_map_built.
  - exact Hc.
  - intros i Hi. rewrite !Hall. by rewrite !decide_True by done.
  - by rewrite Hall.
  - exact Hall.
Qed.

Lemma build_markers_and_listeners_witness :
  let w := fst (build one_marker (initial Filter.last_week)) in
  handlers_of (TMarker 0) mouseover w = [MarkerHoverEnter 0] /\
  handlers_of (TMarker 0) mouseout w = [MarkerHoverLeave 0] /\
  handlers_of (TMarker 0) click w = [MarkerClick 0].
Proof.
  intros w.
  destruct (build_markers_and_listeners one_marker Filter.last_week)
    as (_ & _ & _ & _ & Hthree & _).
  apply Hthree. simpl. lia.
Defined.

End RegistryFacts.

Section Unmounting.
Import Filter Lifecycle Registry.
Context `{Clock}.

(** A startup that runs to its end: the marker fetch is issued and
    answered, then the map is built on the component as it then is. *)
Lemma onMount_callback_complete (s : MapSettings) (now : Instant)
    (ml : list Loader.MapMarkerResponseDto) :
  let wl := with_loader (Loader.run [Loader.Load now; Loader.Respond 0 ml]
                           (Loader.initial s)) (initial s) in
  onMount_callback (Exc.Ok tt) now (Exc.Ok ml) (initial s) =
    (fst (build ml wl), Some (snd (build ml wl))).
Proof.
  intros wl. unfold onMount_callback.
  change (loader (initial s)) with (Loader.initial s).
  assert (Hwl : wl = with_loader
                  (Loader.settle (snd (Loader.loadMapMarkers now (Loader.initial s)))
                     (Loader.Fulfilled ml)
                     (fst (Loader.loadMapMarkers now (Loader.initial s)))) (initial s)).
  { subst wl. unfold Loader.run. cbn [foldl Loader.step].
    rewrite loadMapMarkers_eq. reflexivity. }
  destruct (Loader.loadMapMarkers now (Loader.initial s)) as [l r].
  cbn [fst snd] in Hwl. rewrite <- Hwl. by destruct (build ml wl).
Qed.

(** C9: the cleanup is never run.  The function handed to [onMount] is
    async: what Svelte gets back from it is a promise, not a function, so
    Svelte holds no cleanup, and unmounting the component changes nothing
    at all, at whatever point of the startup it happens.  After a startup
    that ran to its end (and did make the closure) every listener
    registered during startup is still registered after the unmount, the
    idle listener included, the clusterer is still on the map and the
    fetch controller is not aborted; a component unmounted while its
    marker fetch is outstanding keeps that fetch in flight. *)
Theorem unmount_releases_nothing (s : MapSettings) (now : Instant)
    (ml : list Loader.MapMarkerResponseDto)
    (scripts : Exc.t unit) (fetched : Exc.t (list Loader.MapMarkerResponseDto))
    (w0 w : World) :
  snd (onMount scripts now fetched w0) = None /\
  unmount (snd (onMount scripts now fetched w0)) w = w /\
  (let r := onMount (Exc.Ok tt) now (Exc.Ok ml) (initial s) in
   let w' := unmount (snd r) (fst r) in
   is_Some (snd (onMount_callback (Exc.Ok tt) now (Exc.Ok ml) (initial s))) /\
   length (listeners w') = 3 * length ml + 1 /\
   handlers_of TMap idle w' = [IdleLog] /\
   (forall i, i < length ml ->
      handlers_of (TMarker i) mouseover w' = [MarkerHoverEnter i] /\
      handlers_of (TMarker i) mouseout w' = [MarkerHoverLeave i] /\
      handlers_of (TMarker i) click w' = [MarkerClick i]) /\
   clusterer w' = Attached /\
   Loader.abortController (loader w') = Some 0 /\
   Loader.aborted (loader w') = [false]) /\
  (let w1 := awaiting_fetch now (initial s) in
   Loader.in_flight
     (loader (unmount (snd (onMount scripts now fetched (initial s))) w1)) =
     [Loader.issued now (Loader.initial s)]).
Proof.
  split; [done |]. split; [done |]. split.
  - cbv zeta. unfold onMount. cbn [fst snd kept_cleanup unmount].
    rewrite onMount_callback_complete. cbn [fst snd].
    set (wl := with_loader _ (initial s)).
    destruct (build_effect ml wl) as (_ & _ & _ & Hl & Hc & _).
    destruct (build_registry ml wl) as [_ Hlen].
    { split; [apply NoDup_nil_2 | apply Forall_nil_2]. }
    cbv zeta in Hl, Hc.
    split; [done |]. split; [rewrite Hlen; simpl; lia |].
    split; [by rewrite build_handlers |].
    split; [| split; [exact Hc |]].
    + intros i Hi. rewrite !build_handlers. by rewrite !decide_True by done.
    + rewrite Hl. subst wl. cbn [loader with_loader].
      unfold Loader.run. cbn [foldl Loader.step]. rewrite loadMapMarkers_eq.
      simpl. done.
  - cbv zeta. unfold onMount. cbn [fst snd kept_cleanup unmount].
    unfold awaiting_fetch. cbn [loader with_loader initial].
    rewrite loadMapMarkers_eq. done.
Qed.

End Unmounting.

Lemma unmount_releases_nothing_witness :
  let r := @Lifecycle.onMount Filter.toy_clock (Exc.Ok tt) 0%Z (Exc.Ok Lifecycle.one_marker)
             (Lifecycle.initial Filter.last_week) in
  Lifecycle.handler <$> Lifecycle.listeners (Lifecycle.unmount (snd r) (fst r)) =
    [Lifecycle.MarkerHoverEnter 0; Lifecycle.MarkerHoverLeave 0; Lifecycle.IdleLog;
     Lifecycle.MarkerClick 0] /\
  Lifecycle.handlers_of (Lifecycle.TMarker 0) Lifecycle.click
    (Lifecycle.unmount (snd r) (fst r)) = [Lifecycle.MarkerClick 0].
Proof.
  intros r. split; [reflexivity |].
  destruct (@unmount_releases_nothing Filter.toy_clock Filter.last_week 0%Z
              Lifecycle.one_marker (Exc.Ok tt) (Exc.Ok Lifecycle.one_marker)
              (Lifecycle.initial Filter.last_week) (Lifecycle.initial Filter.last_week))
    as (_ & _ & (_ & _ & _ & Hmarkers & _) & _).
  apply Hmarkers. simpl. lia.
Defined.

Section StylingFacts.
Import Lifecycle.



End StylingFacts.

Section IdempotentTeardown.
Import Lifecycle.

Lemma abort_request_twice (c : nat) (r : Loader.Request) :
  Loader.abort_request c (Loader.abort_request c r) = Loader.abort_request c r.
Proof.
  unfold Loader.abort_request.
  destruct (Loader.is_pending r && Nat.eqb (Loader.signal r) c) eqn:Hb; [done |].
  by rewrite Hb.
Qed.

Lemma abort_current_twice (st : Loader.State) :
  Loader.abort_current (Loader.abort_current st) = Loader.abort_current st.
Proof.
  unfold Loader.abort_current. destruct (Loader.abortController st) as [c |] eqn:Hc.
  - simpl. rewrite Hc. unfold Loader.abort. simpl.
    rewrite list_insert_insert_eq. f_equal.
    rewrite <- list_fmap_compose. apply list_fmap_ext.
    intros i r _. simpl. apply abort_request_twice.
  - by rewrite Hc.
Qed.

(** X24: The cleanup closure can be called again without further effect, and it leaves
    the viewer's session, the markers and the settings as they were: only
    the registry, the clusterer and the fetch controller are touched. *)
Theorem teardown_idempotent (c : Cleanup) (w : World) :
  teardown c (teardown c w) = teardown c w /\
  page (teardown c w) = page w /\
  markers (teardown c w) = markers w /\
  Loader.settings (loader (teardown c w)) = Loader.settings (loader w) /\
  length (listeners (teardown c w)) <= length (listeners w).
Proof.
  split; [| split; [done |]; split; [done |]; split].
  - unfold teardown, removeListener, with_listeners, with_clusterer, with_loader.
    simpl. f_equal.
    + apply abort_current_twice.
    + by destruct (clusterer w).
    + rewrite list_filter_filter. apply list_filter_iff. intros l. tauto.
  - simpl. apply abort_current_settings.
  - simpl. apply length_filter.
Qed.

End IdempotentTeardown.

Section FailedStartup.
Import Filter Lifecycle.
Context `{Clock}.

(** X25: A marker fetch that rejects ends the startup without a trace on the
    map: no map, marker, clusterer or listener has been made and no
    cleanup closure is made; the one fetch that was issued is settled with
    the error, so nothing is left in flight, while its controller stays
    the current one and is never aborted. *)
Theorem onMount_fetch_failure (s : MapSettings) (now : Instant) (e : Exc.JSError) :
  let r := onMount_callback (Exc.Ok tt) now (Exc.Throw e) (initial s) in
  snd r = None /\
  map_built (fst r) = false /\ markers (fst r) = [] /\
  clusterer (fst r) = NoClusterer /\ listeners (fst r) = [] /\
  Loader.status <$> Loader.requests (loader (fst r)) = [Loader.Rejected e] /\
  Loader.in_flight (loader (fst r)) = [] /\
  Loader.abortController (loader (fst r)) = Some 0 /\
  Loader.aborted (loader (fst r)) = [false].
Proof.
  intros r. subst r. unfold onMount_callback.
  change (loader (initial s)) with (Loader.initial s).
  rewrite loadMapMarkers_eq. simpl. done.
Qed.

End FailedStartup.

Section Thumbnails.
Import Lifecycle.

Lemma append_cancel_r (a b s : string) : a +:+ s = b +:+ s -> a = b.
Proof.
  revert b. induction a as [| x a IH]; intros [| y b] Heq; simpl in *.
  - done.
  - apply (f_equal String.length) in Heq.
    rewrite ?string_length_app in Heq. simpl in Heq.
    rewrite ?string_length_app in Heq. simpl in Heq. lia.
  - apply (f_equal String.length) in Heq.
    rewrite ?string_length_app in Heq. simpl in Heq.
    rewrite ?string_length_app in Heq. simpl in Heq. lia.
  - injection Heq as -> Heq. f_equal. by apply IH.
Qed.

(** X26: Different assets get different thumbnail URLs: the URL determines the
    id it was made from. *)
Theorem thumbnail_injective (a b : string) :
  thumbnail a = thumbnail b -> a = b.
Proof.
  unfold thumbnail. intros Heq. simpl in Heq.
  injection Heq as Heq. exact (append_cancel_r a b "/thumbnail" Heq).
Qed.

Lemma thumbnail_injective_witness : "m1" = "m1".
Proof. apply (thumbnail_injective "m1" "m1"). reflexivity. Defined.

End Thumbnails.

(** The properties above at concrete inputs. *)

Lemma settled_fetch_is_final_witness :
  let st := @Loader.run Filter.toy_clock
              [Loader.Load (1%Z : @Filter.Instant Filter.toy_clock);
               Loader.Respond 0 Lifecycle.one_marker]
              (Loader.initial Filter.last_week) in
  Loader.status <$>
    Loader.requests
      (@Loader.run Filter.toy_clock
         [Loader.Load (2%Z : @Filter.Instant Filter.toy_clock);
          Loader.Respond 0 []; Loader.CleanupAbort] st) !! 0 =
    Some (Loader.Fulfilled Lifecycle.one_marker).
Proof.
  intros st.
  rewrite (@settled_fetch_is_final Filter.toy_clock
             [Loader.Load (2%Z : @Filter.Instant Filter.toy_clock);
              Loader.Respond 0 []; Loader.CleanupAbort] st 0
             {| Loader.query := Loader.query (@Loader.issued Filter.toy_clock 1%Z
                                                (Loader.initial Filter.last_week));
                Loader.signal := 0;
                Loader.status := Loader.Fulfilled Lifecycle.one_marker |});
    reflexivity.
Defined.

Lemma one_fetch_one_controller_per_load_witness :
  let st := @Loader.run Filter.toy_clock
              [Loader.Load (1%Z : @Filter.Instant Filter.toy_clock);
               Loader.Load (2%Z : @Filter.Instant Filter.toy_clock)]
              (Loader.initial Filter.last_week) in
  Loader.signal (@Loader.issued Filter.toy_clock 2%Z
                   (@Loader.run Filter.toy_clock
                      [Loader.Load (1%Z : @Filter.Instant Filter.toy_clock)]
                      (Loader.initial Filter.last_week))) = 1.
Proof.
  intros st.
  destruct (@one_fetch_one_controller_per_load Filter.toy_clock Filter.last_week
              [Loader.Load (1%Z : @Filter.Instant Filter.toy_clock);
               Loader.Load (2%Z : @Filter.Instant Filter.toy_clock)])
    as (_ & _ & Hsig).
  apply Hsig. reflexivity.
Defined.

Lemma superseded_controllers_aborted_witness :
  let st := @Loader.run Filter.toy_clock
              [Loader.Load (1%Z : @Filter.Instant Filter.toy_clock);
               Loader.Load (2%Z : @Filter.Instant Filter.toy_clock)]
              (Loader.initial Filter.last_week) in
  default false (Loader.aborted st !! 0) = true.
Proof.
  intros st.
  destruct (@superseded_controllers_aborted Filter.toy_clock Filter.last_week
              [Loader.Load (1%Z : @Filter.Instant Filter.toy_clock);
               Loader.Load (2%Z : @Filter.Instant Filter.toy_clock)])
    as (_ & Hold & _).
  apply (Hold 0); [reflexivity | discriminate].
Defined.


Section QueryFacts.
Import Filter Loader.
Context `{Clock}.

(** X15: The fetch a load issues carries a filter flag only when the setting is
    on (an off setting is omitted, never sent as [false]), never carries an
    empty [fileCreatedAfter], and is given the signal of the controller
    the same call has just created, which is not aborted. *)
Theorem loadMapMarkers_query (now : Instant) (st : State) :
  let st' := fst (loadMapMarkers now st) in
  let s := settings st in
  exists rq,
    requests st' !! snd (loadMapMarkers now st) = Some rq /\
    isArchived (query rq) = (if includeArchived s then Some true else None) /\
    isFavorite (query rq) = (if onlyFavorites s then Some true else None) /\
    q_withPartners (query rq) = (if withPartners s then Some true else None) /\
    q_withSharedAlbums (query rq) = (if withSharedAlbums s then Some true else None) /\
    q_fileCreatedAfter (query rq) <> Some "" /\
    abortController st' = Some (signal rq) /\
    aborted st' !! signal rq = Some false /\
    signal rq = length (aborted st).
Proof.
  intros st' s. subst st'. rewrite loadMapMarkers_eq. cbn [fst snd requests].
  exists (issued now st). split; [apply lookup_last |].
  unfold issued. simpl. fold s.
  split; [done |]. split; [done |]. split; [done |]. split; [done |].
  split; [| split; [done |]; split].
  - destruct (fileCreatedAfter _) as [| | x]; simpl; [done | done |].
    destruct x; simpl; [done |]. discriminate.
  - apply lookup_last.
  - unfold abort_current. destruct (abortController st); [| done].
    simpl. by rewrite length_insert.
Qed.

End QueryFacts.
